(** * Non-uniform WENO coefficient construction (src/nfweno.c)

    A shallow embedding of the routines of [nfweno.c]:
    the in-place polynomial macros, [weno_recon_polys], [weno_recon_coefs],
    [weno_smoothness_coefs] and the entry point [py_nonuniform_coeffs].

    Conventions of the embedding.
    - [dtype] (a C [double]) is read as a real number: arithmetic on
      coefficients is exact, rounding is not part of the model.  Module
      [Binary64] repeats the polynomial builder and the smoothness pass on
      IEEE binary64 numbers, for the property that rounding decides.
    - C [int] values are integers of [Z]; the index arithmetic of the loops
      is assumed not to overflow.
    - A pointer ([double *], [poly *]) is a map from element offsets to
      values, and an assignment through it is a functional update.
    - A [for] loop is a left fold of its body over the list of values taken
      by its counter; [continue] leaves the loop state as it is. *)

From Stdlib Require Import String.
From Stdlib Require Import ZArith List Reals Lra Lia Bool.
From Stdlib Require PrimFloat.
Import ListNotations.

Open Scope Z_scope.

(** ** Loops and memory *)

(** The values taken by [for (int z = lo; z < hi; z++)]. *)
Definition zrange (lo hi : Z) : list Z :=
  map (fun z => lo + Z.of_nat z) (seq 0 (Z.to_nat (hi - lo))).

(** The values taken by [for (int z = n; z > 0; z--)]. *)
Definition down_to_1 (n : nat) : list nat := rev (seq 1 n).

(** The values taken by [for (int z = 0; z <= n; z++)]. *)
Definition up_to (n : nat) : list nat := seq 0 (S n).

(** Memory reached through a pointer, addressed by element offset. *)
Definition mem (A : Type) : Type := Z -> A.

Definition store {A : Type} (m : mem A) (a : Z) (v : A) : mem A :=
  fun b => if b =? a then v else m b.

(** A local array, read at an [int] index. *)
Definition znth (l : list R) (z : Z) : R :=
  if z <? 0 then 0%R else nth (Z.to_nat z) l 0%R.

(** Assignment to one cell of a fixed-size array. *)
Fixpoint upd {A : Type} (l : list A) (z : nat) (v : A) : list A :=
  match l, z with
  | [], _ => []
  | _ :: t, O => v :: t
  | h :: t, S z' => h :: upd t z' v
  end.

(** Sum of [f z] for [z] in [l]. *)
Definition sumR {A : Type} (f : A -> R) (l : list A) : R :=
  fold_right (fun z acc => (f z + acc)%R) 0%R l.

(** Product of [f z] for [z] in [l]. *)
Definition prodR {A : Type} (f : A -> R) (l : list A) : R :=
  fold_right (fun z acc => (f z * acc)%R) 1%R l.

(** ** The polynomial value type *)

(** Modelled from the spec: the [poly] struct of poly.h, which is not part of
    the sources at hand.  A polynomial of working degree [n] in monomial
    basis: the coefficient of [x^i] sits at index [i], and the array holds
    [n+1] coefficients. *)
Record poly : Type := mkpoly { poly_n : nat; poly_p : list R }.

Definition coef (p : poly) (z : nat) : R := nth z (poly_p p) 0%R.

Definition set_coef (p : poly) (z : nat) (v : R) : poly :=
  mkpoly (poly_n p) (upd (poly_p p) z v).

(** Modelled from the spec: [poly_zero] of poly.c, the additive identity of
    working degree [n]. *)
Definition poly_zero (n : Z) : poly :=
  mkpoly (Z.to_nat n) (repeat 0%R (S (Z.to_nat n))).

(** Modelled from the spec: [poly_one] of poly.c, the multiplicative identity
    of working degree [n]. *)
Definition poly_one (n : Z) : poly :=
  mkpoly (Z.to_nat n) (1%R :: repeat 0%R (Z.to_nat n)).

(** Modelled from the spec: [poly_eval] of poly.c, Horner-style evaluation. *)
Definition poly_eval (p : poly) (t : R) : R :=
  fold_left (fun acc z => (coef p z + t * acc)%R)
            (rev (seq 0 (poly_n p))) (coef p (poly_n p)).

(** Modelled from the spec: one symbolic differentiation; the degree drops by
    one and is clamped at 0, where the result is identically zero. *)
Definition poly_diff1 (p : poly) : poly :=
  match poly_n p with
  | O => mkpoly 0 [0%R]
  | S n' => mkpoly n' (map (fun z => (INR (S z) * coef p (S z))%R) (up_to n'))
  end.

(** Modelled from the spec: [poly_diff] of poly.c, repeated symbolic
    differentiation. *)
Definition poly_diff (p : poly) (order : Z) : poly :=
  Nat.iter (Z.to_nat order) poly_diff1 p.

(** Modelled from the spec: [poly_mult] of poly.c, the full polynomial
    product, of degree [deg p1 + deg p2]. *)
Definition poly_mult (p1 p2 : poly) : poly :=
  let n := (poly_n p1 + poly_n p2)%nat in
  mkpoly n (map (fun z => sumR (fun i => (coef p1 i * coef p2 (z - i))%R)
                               (up_to z))
                (up_to n)).

(** Modelled from the spec: [poly_int] of poly.c, the closed-form
    antiderivative evaluated at the bounds. *)
Definition poly_int (p : poly) (a b : R) : R :=
  sumR (fun z => (coef p z / INR (S z) * (b ^ S z - a ^ S z))%R)
       (up_to (poly_n p)).

(** The macro [inplace_poly_mult_xpa(p1, a)]: p(x) <- (x + a) p(x). *)
Definition inplace_poly_mult_xpa (p1 : poly) (a : R) : poly :=
  let p1 :=
    fold_left (fun q z => set_coef q z (coef q (z - 1) + a * coef q z)%R)
              (down_to_1 (poly_n p1)) p1 in
  set_coef p1 0 (a * coef p1 0)%R.

(** The macro [inplace_poly_add(p1, p2)]: p1(x) <- p1(x) + p2(x). *)
Definition inplace_poly_add (p1 p2 : poly) : poly :=
  fold_left (fun q z => set_coef q z (coef q z + coef p2 z)%R)
            (up_to (poly_n p1)) p1.

(** The macro [inplace_poly_scale(p1, a)]: p1(x) <- a * p1(x). *)
Definition inplace_poly_scale (p1 : poly) (a : R) : poly :=
  fold_left (fun q z => set_coef q z (coef q z * a)%R)
            (up_to (poly_n p1)) p1.

(** ** The [weno] struct *)

(** Modelled from the spec: the [weno] struct of nfweno.h, with the fields
    that nfweno.c reads and writes. *)
Record weno : Type := mkweno {
  w_k : Z; w_nx : Z; w_nc : Z; w_nxi : Z;
  w_x : mem R; w_xi : mem R;
  w_c_irj_x : mem poly;
  w_c_ilrj : mem R;
  w_beta : mem R;
  w_csi : Z; w_csl : Z; w_csr : Z; w_csj : Z;
  w_bsi : Z; w_bsr : Z; w_bsm : Z; w_bsn : Z
}.

Definition set_c_irj_x (w : weno) (c : mem poly) : weno :=
  mkweno (w_k w) (w_nx w) (w_nc w) (w_nxi w) (w_x w) (w_xi w)
         c (w_c_ilrj w) (w_beta w)
         (w_csi w) (w_csl w) (w_csr w) (w_csj w)
         (w_bsi w) (w_bsr w) (w_bsm w) (w_bsn w).

Definition set_c_ilrj (w : weno) (c : mem R) : weno :=
  mkweno (w_k w) (w_nx w) (w_nc w) (w_nxi w) (w_x w) (w_xi w)
         (w_c_irj_x w) c (w_beta w)
         (w_csi w) (w_csl w) (w_csr w) (w_csj w)
         (w_bsi w) (w_bsr w) (w_bsm w) (w_bsn w).

Definition set_beta (w : weno) (b : mem R) : weno :=
  mkweno (w_k w) (w_nx w) (w_nc w) (w_nxi w) (w_x w) (w_xi w)
         (w_c_irj_x w) (w_c_ilrj w) b
         (w_csi w) (w_csl w) (w_csr w) (w_csj w)
         (w_bsi w) (w_bsr w) (w_bsm w) (w_bsn w).

(** ** [weno_recon_polys] *)

(** The index [i - il + j] at which the grid is read. *)
Definition x_index (il i j : Z) : Z := i - il + j.

(** The index [il - r + n] at which the local window is read. *)
Definition xlocal_index (il r n : Z) : Z := il - r + n.

(** [for (j = 0; j < 2*k; j++) xlocal[j] = x[i-il+j] - x[i];] *)
Definition xlocal_fill (k : Z) (x : mem R) (il i : Z) : list R :=
  map (fun j => (x (x_index il i j) - x i)%R) (zrange 0 (2 * k)).

(** The body of the loop over [n]. *)
Definition prd_n_body (xlocal : list R) (il r l m : Z)
    (prd_n : poly) (n : Z) : poly :=
  if (n =? l) || (n =? m) then prd_n
  else inplace_poly_mult_xpa prd_n (- znth xlocal (xlocal_index il r n))%R.

(** The loop over [n] that builds [prd_n]. *)
Definition prd_n_loop (k : Z) (xlocal : list R) (il r l m : Z) : poly :=
  fold_left (prd_n_body xlocal il r l m)
            (zrange 0 (k + 1)) (poly_one (k - 1)).

(** The first loop over [m], which builds [sum_m]. *)
Definition sum_m_loop (k : Z) (xlocal : list R) (il r l : Z) : poly :=
  fold_left
    (fun sum_m m =>
       if m =? l then sum_m
       else inplace_poly_add sum_m (prd_n_loop k xlocal il r l m))
    (zrange 0 (k + 1)) (poly_zero (k - 1)).

(** The second loop over [m], which builds the denominator [a]. *)
Definition a_loop (k : Z) (xlocal : list R) (il r l : Z) : R :=
  fold_left
    (fun a m =>
       if m =? l then a
       else (a * (znth xlocal (xlocal_index il r l)
                  - znth xlocal (xlocal_index il r m)))%R)
    (zrange 0 (k + 1)) 1%R.

(** The body of the loop over [l]. *)
Definition recon_polys_l (k : Z) (xlocal : list R) (il r irj : Z)
    (c : mem poly) (l : Z) : mem poly :=
  let sum_m := sum_m_loop k xlocal il r l in
  let a := a_loop k xlocal il r l in
  let a := (1 / a)%R in
  let sum_m := inplace_poly_scale sum_m a in
  store c irj (inplace_poly_add (c irj) sum_m).

(** The body of the loop over [j]. *)
Definition recon_polys_j (k : Z) (xlocal : list R) (il i r : Z)
    (c : mem poly) (j : Z) : mem poly :=
  let irj := i * k * k + r * k + j in
  let c := store c irj (poly_zero (k - 1)) in
  fold_left (recon_polys_l k xlocal il r irj) (zrange (j + 1) (k + 1)) c.

(** The body of the loop over [r]. *)
Definition recon_polys_r (k : Z) (xlocal : list R) (il i : Z)
    (c : mem poly) (r : Z) : mem poly :=
  fold_left (recon_polys_j k xlocal il i r) (zrange 0 k) c.

(** The body of the loop over [i]. *)
Definition recon_polys_i (k : Z) (x : mem R) (il : Z)
    (c : mem poly) (i : Z) : mem poly :=
  let xlocal := xlocal_fill k x il i in
  fold_left (recon_polys_r k xlocal il i) (zrange 0 k) c.

Definition weno_recon_polys (w0 : weno) : weno :=
  let w := w0 in
  let il := w_k w - 1 in
  set_c_irj_x w
    (fold_left (recon_polys_i (w_k w) (w_x w) il)
               (zrange (w_k w - 1) (w_nc w - (w_k w - 1)))
               (w_c_irj_x w)).

(** ** [weno_recon_coefs] *)

(** The body of the loop over [n]. *)
Definition recon_coefs_n (w : weno) (i r j : Z) (c : mem R) (n : Z) : mem R :=
  let xi := (0.5 * (1 + w_xi w n) * (w_x w (i + 1)%Z - w_x w i))%R in
  let ilrj := w_csi w * i + w_csl w * n + w_csr w * r + w_csj w * j in
  let irj := i * w_k w * w_k w + r * w_k w + j in
  store c ilrj (poly_eval (w_c_irj_x w irj) xi).

Definition recon_coefs_j (w : weno) (i r : Z) (c : mem R) (j : Z) : mem R :=
  fold_left (recon_coefs_n w i r j) (zrange 0 (w_nxi w)) c.

Definition recon_coefs_r (w : weno) (i : Z) (c : mem R) (r : Z) : mem R :=
  fold_left (recon_coefs_j w i r) (zrange 0 (w_k w)) c.

Definition recon_coefs_i (w : weno) (c : mem R) (i : Z) : mem R :=
  fold_left (recon_coefs_r w i) (zrange 0 (w_k w)) c.

Definition weno_recon_coefs (w0 : weno) : weno :=
  let w := w0 in
  set_c_ilrj w
    (fold_left (recon_coefs_i w)
               (zrange (w_k w - 1) (w_nc w - (w_k w - 1)))
               (w_c_ilrj w)).

(** ** [weno_smoothness_coefs] *)

(** The state of the loop over [d]: [pm], [pn] and [l2]. *)
Definition smoothness_d (multi : Z) (dx : R) (st : poly * poly * R) (d : Z)
    : poly * poly * R :=
  let '(pm, pn, l2) := st in
  let pm := poly_diff pm 1 in
  let pn := poly_diff pn 1 in
  let l2 := (l2 + IZR multi * powerRZ dx (2 * d - 1)
                  * poly_int (poly_mult pm pn) 0 dx)%R in
  (pm, pn, l2).

(** The body of the loop over [n]. *)
Definition smoothness_n (w : weno) (dx : R) (i r m irm : Z)
    (b : mem R) (n : Z) : mem R :=
  let irn := i * w_k w * w_k w + r * w_k w + n in
  let multi := if m =? n then 1 else 2 in
  let pm := w_c_irj_x w irm in
  let pn := w_c_irj_x w irn in
  let l2 := 0%R in
  let '(_, _, l2) :=
    fold_left (smoothness_d multi dx) (zrange 1 (w_k w)) (pm, pn, l2) in
  store b (w_bsi w * i + w_bsr w * r + w_bsm w * m + w_bsn w * n) l2.

Definition smoothness_m (w : weno) (dx : R) (i r : Z)
    (b : mem R) (m : Z) : mem R :=
  let irm := i * w_k w * w_k w + r * w_k w + m in
  fold_left (smoothness_n w dx i r m irm) (zrange m (w_k w)) b.

Definition smoothness_r (w : weno) (dx : R) (i : Z)
    (b : mem R) (r : Z) : mem R :=
  fold_left (smoothness_m w dx i r) (zrange 0 (w_k w)) b.

Definition smoothness_i (w : weno) (b : mem R) (i : Z) : mem R :=
  let dx := (w_x w (i + 1)%Z - w_x w i)%R in
  fold_left (smoothness_r w dx i) (zrange 0 (w_k w)) b.

Definition weno_smoothness_coefs (w0 : weno) : weno :=
  let w := w0 in
  set_beta w
    (fold_left (smoothness_i w)
               (zrange (w_k w - 1) (w_nc w - (w_k w - 1)))
               (w_beta w)).

(** ** [py_nonuniform_coeffs] *)

(** NumPy's type number of [double] and the size of a [double] in bytes. *)
Definition PyArray_DOUBLE : Z := 12.
Definition sizeof_double : Z := 8.

(** The fields of a NumPy array object that the entry point reads:
    [nd], [descr->type_num], [dimensions], [strides] (in bytes) and the data
    the array points to. *)
Record PyArrayObject : Type := mkarray {
  arr_nd : Z;
  arr_type_num : Z;
  arr_dimensions : list Z;
  arr_strides : list Z;
  arr_data : mem R
}.

Definition PyArray_DIM (a : PyArrayObject) (z : nat) : Z :=
  nth z (arr_dimensions a) 0.

Definition stride (a : PyArrayObject) (z : nat) : Z :=
  nth z (arr_strides a) 0.

(** The arguments once [PyArg_ParseTuple (args, "iOOOO", ...)] has succeeded,
    the four objects being arrays. *)
Record py_args : Type := mkargs {
  arg_k : Z;
  arg_xi : PyArrayObject;
  arg_x : PyArrayObject;
  arg_c : PyArrayObject;
  arg_beta : PyArrayObject
}.

(** What the caller gets back: [NULL] with a [ValueError] set, or [None]. *)
Inductive PyReturn : Type :=
| PyNULL_ValueError (msg : string)
| Py_None.

(** The return value together with the contents of the two output buffers
    when the call returns. *)
Record py_outcome : Type := mkoutcome {
  out_ret : PyReturn;
  out_c : mem R;
  out_beta : mem R
}.

(** [calloc]: every byte zero, so every [poly] has [n = 0] and coefficient 0. *)
Definition calloc_poly : mem poly := fun _ => mkpoly 0 [0%R].

Definition py_nonuniform_coeffs (args : py_args) : py_outcome :=
  let k := arg_k args in
  let xi_py := arg_xi args in
  let x_py := arg_x args in
  let c_py := arg_c args in
  let beta_py := arg_beta args in
  let unwritten := fun ret => mkoutcome ret (arr_data c_py) (arr_data beta_py) in
  if negb (arr_nd x_py =? 1) || negb (arr_type_num x_py =? PyArray_DOUBLE)
  then unwritten
         (PyNULL_ValueError "x must be one-dimensional and of type double")
  else
  if negb (arr_nd xi_py =? 1) || negb (arr_type_num xi_py =? PyArray_DOUBLE)
  then unwritten
         (PyNULL_ValueError "xi must be one-dimensional and of type double")
  else
  if negb (arr_nd c_py =? 4) || negb (arr_type_num c_py =? PyArray_DOUBLE)
  then unwritten
         (PyNULL_ValueError "c must be four-dimensional and of type double")
  else
  if negb (arr_nd beta_py =? 4) || negb (arr_type_num beta_py =? PyArray_DOUBLE)
  then unwritten
         (PyNULL_ValueError "beta must be four-dimensional and of type double")
  else
  let x := arr_data x_py in
  let xi := arr_data xi_py in
  let c := arr_data c_py in
  let beta := arr_data beta_py in
  let nx := PyArray_DIM x_py 0 in
  let nxi := PyArray_DIM xi_py 0 in
  let w :=
    mkweno k nx (nx - 1) nxi x xi calloc_poly c beta
      (Z.quot (stride c_py 0) sizeof_double)
      (Z.quot (stride c_py 1) sizeof_double)
      (Z.quot (stride c_py 2) sizeof_double)
      (Z.quot (stride c_py 3) sizeof_double)
      (Z.quot (stride beta_py 0) sizeof_double)
      (Z.quot (stride beta_py 1) sizeof_double)
      (Z.quot (stride beta_py 2) sizeof_double)
      (Z.quot (stride beta_py 3) sizeof_double) in
  let w := weno_recon_polys w in
  let w := weno_recon_coefs w in
  let w := weno_smoothness_coefs w in
  mkoutcome Py_None (w_c_ilrj w) (w_beta w).

(** ** Meaning of the polynomial representation *)

(** The array of a polynomial of working degree [n] holds [n+1] coefficients. *)
Definition wf (p : poly) : Prop := length (poly_p p) = S (poly_n p).

(** The polynomial a [poly] stands for, in monomial form:
    the sum of [p[z] * t^z] for [z] from 0 to [n]. *)
Definition poly_value (p : poly) (t : R) : R :=
  sumR (fun z => (coef p z * t ^ z)%R) (up_to (poly_n p)).

(** [p] has degree strictly less than [d]. *)
Definition degree_lt (p : poly) (d : nat) : Prop :=
  forall z, (d <= z)%nat -> coef p z = 0%R.

(** ** Iteration spaces *)

(** The cells processed by the three passes: [i] in [[k-1, nc-(k-1))]. *)
Definition cells (k nc : Z) : list Z := zrange (k - 1) (nc - (k - 1)).

(** The triples [(i, r, j)] visited by [weno_recon_polys], in order. *)
Definition polys_space (k nc : Z) : list (Z * Z * Z) :=
  flat_map (fun i =>
    flat_map (fun r => map (fun j => (i, r, j)) (zrange 0 k)) (zrange 0 k))
    (cells k nc).

(** The tuples [(i, r, j, n)] visited by [weno_recon_coefs], in order. *)
Definition coefs_space (k nc nxi : Z) : list (Z * Z * Z * Z) :=
  flat_map (fun i =>
    flat_map (fun r =>
      flat_map (fun j => map (fun n => (i, r, j, n)) (zrange 0 nxi))
               (zrange 0 k))
      (zrange 0 k))
    (cells k nc).

(** The tuples [(i, r, m, n)] visited by [weno_smoothness_coefs], in order. *)
Definition smoothness_space (k nc : Z) : list (Z * Z * Z * Z) :=
  flat_map (fun i =>
    flat_map (fun r =>
      flat_map (fun m => map (fun n => (i, r, m, n)) (zrange m k))
               (zrange 0 k))
      (zrange 0 k))
    (cells k nc).

(** Offsets of the entries of the three arrays. *)
Definition irj_offset (k i r j : Z) : Z := i * k * k + r * k + j.

Definition c_offset (w : weno) (i l r j : Z) : Z :=
  w_csi w * i + w_csl w * l + w_csr w * r + w_csj w * j.

Definition beta_offset (w : weno) (i r m n : Z) : Z :=
  w_bsi w * i + w_bsr w * r + w_bsm w * m + w_bsn w * n.

(** The cell an iteration of [weno_recon_coefs] assigns to. *)
Definition coefs_addr (w : weno) (y : Z * Z * Z * Z) : Z :=
  let '(i, r, j, n) := y in c_offset w i n r j.

(** The cell an iteration of [weno_smoothness_coefs] assigns to. *)
Definition smoothness_addr (w : weno) (y : Z * Z * Z * Z) : Z :=
  let '(i, r, m, n) := y in beta_offset w i r m n.

(** The strides of [c] give distinct entries of the tensor, of extents
    [(nc, nxi, k, k)], distinct cells of the buffer. *)
Definition c_layout_injective (w : weno) : Prop :=
  forall i l r j i' l' r' j',
    0 <= i < w_nc w -> 0 <= l < w_nxi w -> 0 <= r < w_k w -> 0 <= j < w_k w ->
    0 <= i' < w_nc w -> 0 <= l' < w_nxi w -> 0 <= r' < w_k w ->
    0 <= j' < w_k w ->
    c_offset w i l r j = c_offset w i' l' r' j' ->
    (i, l, r, j) = (i', l', r', j').

(** The strides of [beta] give distinct entries of the tensor, of extents
    [(nc, k, k, k)], distinct cells of the buffer. *)
Definition beta_layout_injective (w : weno) : Prop :=
  forall i r m n i' r' m' n',
    0 <= i < w_nc w -> 0 <= r < w_k w -> 0 <= m < w_k w -> 0 <= n < w_k w ->
    0 <= i' < w_nc w -> 0 <= r' < w_k w -> 0 <= m' < w_k w ->
    0 <= n' < w_k w ->
    beta_offset w i r m n = beta_offset w i' r' m' n' ->
    (i, r, m, n) = (i', r', m', n').

(** The iteration of [weno_recon_polys] for one triple [(i, r, j)]. *)
Definition recon_polys_at (k : Z) (x : mem R) (c : mem poly)
    (irj : Z * Z * Z) : mem poly :=
  let '(i, r, j) := irj in
  recon_polys_j k (xlocal_fill k x (k - 1) i) (k - 1) i r c j.

(** The iteration of [weno_recon_coefs] for one tuple [(i, r, j, n)]. *)
Definition recon_coefs_at (w : weno) (c : mem R)
    (irjn : Z * Z * Z * Z) : mem R :=
  let '(i, r, j, n) := irjn in recon_coefs_n w i r j c n.

(** The iteration of [weno_smoothness_coefs] for one tuple [(i, r, m, n)]. *)
Definition smoothness_at (w : weno) (b : mem R)
    (irmn : Z * Z * Z * Z) : mem R :=
  let '(i, r, m, n) := irmn in
  smoothness_n w (w_x w (i + 1)%Z - w_x w i)%R i r m
               (i * w_k w * w_k w + r * w_k w + m) b n.

(** ** The reconstruction polynomials in closed form *)

(** The local window, [xlocal[j] = x[i-il+j] - x[i]] with [il = k-1]. *)
Definition xlocal_at (x : mem R) (k i j : Z) : R :=
  (x (i - (k - 1) + j)%Z - x i)%R.

(** The stencil nodes, [node[m] = xlocal[il-r+m]]. *)
Definition node (x : mem R) (k i r m : Z) : R :=
  xlocal_at x k i ((k - 1) - r + m).

(** The node indices of [[0,k]] other than [l]. *)
Definition others (k l : Z) : list Z :=
  filter (fun m => negb (m =? l)) (zrange 0 (k + 1)).

(** The node indices of [[0,k]] other than [l] and [m]. *)
Definition others2 (k l m : Z) : list Z :=
  filter (fun n => negb ((n =? l) || (n =? m))) (zrange 0 (k + 1)).

(** The Lagrange denominator: the product of [node[l] - node[m]] over the
    nodes [m] other than [l]. *)
Definition lagrange_denominator (x : mem R) (k i r l : Z) : R :=
  prodR (fun m => (node x k i r l - node x k i r m)%R) (others k l).

(** The term, as the specification words it: the single product of
    [(t - node[m])] over the nodes other than [l], over the denominator. *)
Definition lagrange_term (x : mem R) (k i r l : Z) (t : R) : R :=
  (prodR (fun m => (t - node x k i r m)%R) (others k l)
   * (1 / lagrange_denominator x k i r l))%R.

(** The polynomial for [(i, r, j)], as the specification words it. *)
Definition lagrange_sum (x : mem R) (k i r j : Z) (t : R) : R :=
  sumR (fun l => lagrange_term x k i r l t) (zrange (j + 1) (k + 1)).

(** The term the code builds: the sum over the nodes [m] other than [l] of the
    product of [(t - node[n])] over the nodes other than [l] and [m] (the
    derivative of the product above), over the same denominator. *)
Definition recon_term (x : mem R) (k i r l : Z) (t : R) : R :=
  (sumR (fun m => prodR (fun n => (t - node x k i r n)%R) (others2 k l m))
        (others k l)
   * (1 / lagrange_denominator x k i r l))%R.

(** The polynomial for [(i, r, j)] the code builds. *)
Definition recon_sum (x : mem R) (k i r j : Z) (t : R) : R :=
  sumR (fun l => recon_term x k i r l t) (zrange (j + 1) (k + 1)).

(** ** The smoothness coefficients in closed form *)

(** [g] is the [d]-th derivative of [f]. *)
Inductive nth_derivative : nat -> (R -> R) -> (R -> R) -> Prop :=
| nth_derivative_O (f g : R -> R) :
    (forall x, f x = g x) -> nth_derivative 0 f g
| nth_derivative_S (d : nat) (f f' g : R -> R) :
    (forall x, derivable_pt_lim f x (f' x)) ->
    nth_derivative d f' g -> nth_derivative (S d) f g.

(** [v] is the definite integral of [f] over [[a, b]]: the increase from [a]
    to [b] of an antiderivative of [f]. *)
Definition definite_integral (f : R -> R) (a b v : R) : Prop :=
  exists F : R -> R, (forall x, derivable_pt_lim F x (f x)) /\ v = (F b - F a)%R.

(** The antiderivative of a polynomial that vanishes at 0. *)
Definition poly_antiderivative (p : poly) (t : R) : R :=
  sumR (fun z => (coef p z / INR (S z) * t ^ S z)%R) (up_to (poly_n p)).

(** The term of derivative order [d] of a smoothness coefficient. *)
Definition smoothness_term (multi : Z) (dx : R) (pm pn : poly) (d : Z) : R :=
  (IZR multi * powerRZ dx (2 * d - 1)
   * poly_int (poly_mult (poly_diff pm d) (poly_diff pn d)) 0 dx)%R.

(** The sum over the derivative orders [d] from 1 to [k-1]. *)
Definition smoothness_sum (k : Z) (multi : Z) (dx : R) (pm pn : poly) : R :=
  sumR (smoothness_term multi dx pm pn) (zrange 1 k).

(** ** Translated grids *)

(** The same request on the grid whose boundaries are [x[j] + t]. *)
Definition translate (w : weno) (t : R) : weno :=
  mkweno (w_k w) (w_nx w) (w_nc w) (w_nxi w)
         (fun z => (w_x w z + t)%R) (w_xi w)
         (w_c_irj_x w) (w_c_ilrj w) (w_beta w)
         (w_csi w) (w_csl w) (w_csr w) (w_csj w)
         (w_bsi w) (w_bsr w) (w_bsm w) (w_bsn w).

(** ** A worked example: [k = 2] on the uniform grid 0, 1, 2, 3, 4 *)

Definition ex_x : mem R := fun z => IZR z.

(** One evaluation point, the cell midpoint [xi = 0]. *)
Definition ex_xi : mem R := fun _ => 0%R.

(** [nx = 5], [nc = 4], [nxi = 1]; [c] of extents (4, 1, 2, 2) and [beta] of
    extents (4, 2, 2, 2), both contiguous and zero before the call. *)
Definition ex_w : weno :=
  mkweno 2 5 4 1 ex_x ex_xi calloc_poly (fun _ => 0%R) (fun _ => 0%R)
         4 4 2 1
         8 4 2 1.

(** The same example as a call of [py_nonuniform_coeffs]: arrays of doubles,
    strides in bytes. *)
Definition ex_x_py : PyArrayObject := mkarray 1 PyArray_DOUBLE [5] [8] ex_x.
Definition ex_xi_py : PyArrayObject := mkarray 1 PyArray_DOUBLE [1] [8] ex_xi.
Definition ex_c_py : PyArrayObject :=
  mkarray 4 PyArray_DOUBLE [4; 1; 2; 2] [32; 32; 16; 8] (fun _ => 0%R).
Definition ex_beta_py : PyArrayObject :=
  mkarray 4 PyArray_DOUBLE [4; 2; 2; 2] [64; 32; 16; 8] (fun _ => 0%R).

Definition ex_args : py_args := mkargs 2 ex_xi_py ex_x_py ex_c_py ex_beta_py.

(** A request whose [c] has 10 cells along its first axis where the grid has
    4: the extents do not fit the grid, the buffer is large enough. *)
Definition ex_args_mismatch : py_args :=
  mkargs 2 ex_xi_py ex_x_py
         (mkarray 4 PyArray_DOUBLE [10; 1; 2; 2] [32; 32; 16; 8] (fun _ => 0%R))
         ex_beta_py.

(** A request whose [x] is two-dimensional. *)
Definition ex_args_2d : py_args :=
  mkargs 2 ex_xi_py (mkarray 2 PyArray_DOUBLE [5; 1] [8; 8] ex_x)
         ex_c_py ex_beta_py.

(** A request with [k = 3] on the same grid of 5 boundaries: [nx < 2k]. *)
Definition ex_args_short : py_args :=
  mkargs 3 ex_xi_py ex_x_py ex_c_py ex_beta_py.

(** ** The request taxonomy of the boundary layer *)

Definition wrong_dimensionality (args : py_args) : Prop :=
  arr_nd (arg_x args) <> 1 \/ arr_nd (arg_xi args) <> 1 \/
  arr_nd (arg_c args) <> 4 \/ arr_nd (arg_beta args) <> 4.

Definition wrong_element_type (args : py_args) : Prop :=
  arr_type_num (arg_x args) <> PyArray_DOUBLE \/
  arr_type_num (arg_xi args) <> PyArray_DOUBLE \/
  arr_type_num (arg_c args) <> PyArray_DOUBLE \/
  arr_type_num (arg_beta args) <> PyArray_DOUBLE.

(** The sizes of [k], the grid and the output tensors fit together:
    [nx >= 2k], [c] of extents [(nc, nxi, k, k)] and [beta] of extents
    [(nc, k, k, k)]. *)
Definition sizes_consistent (args : py_args) : Prop :=
  let k := arg_k args in
  let nx := PyArray_DIM (arg_x args) 0 in
  let nxi := PyArray_DIM (arg_xi args) 0 in
  nx >= 2 * k /\
  arr_dimensions (arg_c args) = [nx - 1; nxi; k; k] /\
  arr_dimensions (arg_beta args) = [nx - 1; k; k; k].

(** The request is rejected: an error is set, and neither output buffer
    differs from what it was. *)
Definition rejected (args : py_args) (out : py_outcome) : Prop :=
  (exists msg, out_ret out = PyNULL_ValueError msg) /\
  out_c out = arr_data (arg_c args) /\
  out_beta out = arr_data (arg_beta args).

(** The values C3 expects for [c[1,0,r,j]]: [3/2, -1/2] for one shift and
    [1/2, 3/2] for the other. *)
Definition standard_k2_values (c00 c01 c10 c11 : R) : Prop :=
  (c00 = 3 / 2 /\ c01 = - 1 / 2 /\ c10 = 1 / 2 /\ c11 = 3 / 2)%R \/
  (c10 = 3 / 2 /\ c11 = - 1 / 2 /\ c00 = 1 / 2 /\ c01 = 3 / 2)%R.

(** ** Calling again, rescaled grids *)

(** The same request with other contents in the two output buffers. *)
Definition with_buffers (args : py_args) (c beta : mem R) : py_args :=
  mkargs (arg_k args) (arg_xi args) (arg_x args)
         (mkarray (arr_nd (arg_c args)) (arr_type_num (arg_c args))
                  (arr_dimensions (arg_c args)) (arr_strides (arg_c args)) c)
         (mkarray (arr_nd (arg_beta args)) (arr_type_num (arg_beta args))
                  (arr_dimensions (arg_beta args))
                  (arr_strides (arg_beta args)) beta).

(** The three passes in the order of [py_nonuniform_coeffs]. *)
Definition weno_passes (w : weno) : weno :=
  weno_smoothness_coefs (weno_recon_coefs (weno_recon_polys w)).


(** The same request on another grid. *)
Definition with_grid (w : weno) (x : mem R) : weno :=
  mkweno (w_k w) (w_nx w) (w_nc w) (w_nxi w) x (w_xi w)
         (w_c_irj_x w) (w_c_ilrj w) (w_beta w)
         (w_csi w) (w_csl w) (w_csr w) (w_csj w)
         (w_bsi w) (w_bsr w) (w_bsm w) (w_bsn w).

(** The physical offset of the evaluation point [n] in cell [i]. *)
Definition xi_phys (w : weno) (i n : Z) : R :=
  (0.5 * (1 + w_xi w n) * (w_x w (i + 1)%Z - w_x w i))%R.

(** The struct that [py_nonuniform_coeffs] fills in from its arguments. *)
Definition weno_of_args (args : py_args) : weno :=
  mkweno (arg_k args) (PyArray_DIM (arg_x args) 0)
         (PyArray_DIM (arg_x args) 0 - 1) (PyArray_DIM (arg_xi args) 0)
         (arr_data (arg_x args)) (arr_data (arg_xi args)) calloc_poly
         (arr_data (arg_c args)) (arr_data (arg_beta args))
         (Z.quot (stride (arg_c args) 0) sizeof_double)
         (Z.quot (stride (arg_c args) 1) sizeof_double)
         (Z.quot (stride (arg_c args) 2) sizeof_double)
         (Z.quot (stride (arg_c args) 3) sizeof_double)
         (Z.quot (stride (arg_beta args) 0) sizeof_double)
         (Z.quot (stride (arg_beta args) 1) sizeof_double)
         (Z.quot (stride (arg_beta args) 2) sizeof_double)
         (Z.quot (stride (arg_beta args) 3) sizeof_double).

(** The array fails the check "[nd]-dimensional and of type double". *)
Definition bad_array (a : PyArrayObject) (nd : Z) : Prop :=
  arr_nd a <> nd \/ arr_type_num a <> PyArray_DOUBLE.

(** ** Contiguous output tensors *)

(** The strides, in elements, of a C-contiguous [c] of extents
    [(nc, nxi, k, k)]. *)
Definition c_contiguous (w : weno) : Prop :=
  w_csj w = 1 /\ w_csr w = w_k w /\ w_csl w = w_k w * w_k w /\
  w_csi w = w_nxi w * (w_k w * w_k w).

(** The strides, in elements, of a C-contiguous [beta] of extents
    [(nc, k, k, k)]. *)
Definition beta_contiguous (w : weno) : Prop :=
  w_bsn w = 1 /\ w_bsm w = w_k w /\ w_bsr w = w_k w * w_k w /\
  w_bsi w = w_k w * (w_k w * w_k w).

(** ** Lagrange interpolation over a list of node indices *)

(** The indices of [L] other than [l]. *)
Definition without (l : Z) (L : list Z) : list Z :=
  filter (fun m => negb (m =? l)) L.




(** ** The builder and the smoothness pass on doubles *)

(** The same code with [dtype] as an IEEE binary64 number: every operation
    rounds to nearest, ties to even, and division by zero, overflow and
    invalid operations give infinities and NaN, as in C. *)
Module Binary64.

Import PrimFloat.

(** [dtype]: a C [double]. *)
Definition dtype : Set := float.

(** The conversion of a small non-negative [int] to [double]. *)
Fixpoint of_nat (n : nat) : dtype :=
  match n with
  | O => 0%float
  | S n' => (of_nat n' + 1)%float
  end.

(** [pow] of the C library at a non-negative integer exponent, as the
    repeated product. *)
Fixpoint pow (b : dtype) (e : nat) : dtype :=
  match e with
  | O => 1%float
  | S e' => (b * pow b e')%float
  end.

(** A local array, read at an [int] index. *)
Definition znth (l : list dtype) (z : Z) : dtype :=
  if z <? 0 then 0%float else nth (Z.to_nat z) l 0%float.

(** Modelled from the spec: the [poly] struct of poly.h, with coefficients of
    type [dtype]. *)
Record poly : Type := mkpoly { poly_n : nat; poly_p : list dtype }.

Definition coef (p : poly) (z : nat) : dtype := nth z (poly_p p) 0%float.

Definition set_coef (p : poly) (z : nat) (v : dtype) : poly :=
  mkpoly (poly_n p) (upd (poly_p p) z v).

(** Modelled from the spec: [poly_zero] and [poly_one] of poly.c. *)
Definition poly_zero (n : Z) : poly :=
  mkpoly (Z.to_nat n) (repeat 0%float (S (Z.to_nat n))).

Definition poly_one (n : Z) : poly :=
  mkpoly (Z.to_nat n) (1%float :: repeat 0%float (Z.to_nat n)).

(** Modelled from the spec: one symbolic differentiation, the coefficient of
    [x^z] becoming [(z+1) * p[z+1]]. *)
Definition poly_diff1 (p : poly) : poly :=
  match poly_n p with
  | O => mkpoly 0 [0%float]
  | S n' => mkpoly n' (map (fun z => (of_nat (S z) * coef p (S z))%float)
                           (up_to n'))
  end.

(** Modelled from the spec: [poly_diff] of poly.c. *)
Definition poly_diff (p : poly) (order : Z) : poly :=
  Nat.iter (Z.to_nat order) poly_diff1 p.

(** Modelled from the spec: [poly_mult] of poly.c, the full product
    accumulated one pair of coefficients at a time, so that no term outside
    the two arrays is formed. *)
Definition poly_mult (p1 p2 : poly) : poly :=
  let n := (poly_n p1 + poly_n p2)%nat in
  fold_left
    (fun q i =>
       fold_left
         (fun q j => set_coef q (i + j)%nat
                    (coef q (i + j)%nat + coef p1 i * coef p2 j)%float)
         (up_to (poly_n p2)) q)
    (up_to (poly_n p1)) (mkpoly n (repeat 0%float (S n))).

(** Modelled from the spec: [poly_int] of poly.c, the closed-form
    antiderivative evaluated at the bounds. *)
Definition poly_int (p : poly) (a b : dtype) : dtype :=
  fold_left
    (fun s z => (s + coef p z / of_nat (S z) * (pow b (S z) - pow a (S z)))%float)
    (up_to (poly_n p)) 0%float.

(** The three macros. *)
Definition inplace_poly_mult_xpa (p1 : poly) (a : dtype) : poly :=
  let p1 :=
    fold_left (fun q z => set_coef q z (coef q (z - 1)%nat + a * coef q z)%float)
              (down_to_1 (poly_n p1)) p1 in
  set_coef p1 0 (a * coef p1 0)%float.

Definition inplace_poly_add (p1 p2 : poly) : poly :=
  fold_left (fun q z => set_coef q z (coef q z + coef p2 z)%float)
            (up_to (poly_n p1)) p1.

Definition inplace_poly_scale (p1 : poly) (a : dtype) : poly :=
  fold_left (fun q z => set_coef q z (coef q z * a)%float)
            (up_to (poly_n p1)) p1.

(** Modelled from the spec: the [weno] struct of nfweno.h. *)
Record weno : Type := mkweno {
  w_k : Z; w_nx : Z; w_nc : Z; w_nxi : Z;
  w_x : mem dtype; w_xi : mem dtype;
  w_c_irj_x : mem poly;
  w_c_ilrj : mem dtype;
  w_beta : mem dtype;
  w_csi : Z; w_csl : Z; w_csr : Z; w_csj : Z;
  w_bsi : Z; w_bsr : Z; w_bsm : Z; w_bsn : Z
}.

Definition set_c_irj_x (w : weno) (c : mem poly) : weno :=
  mkweno (w_k w) (w_nx w) (w_nc w) (w_nxi w) (w_x w) (w_xi w)
         c (w_c_ilrj w) (w_beta w)
         (w_csi w) (w_csl w) (w_csr w) (w_csj w)
         (w_bsi w) (w_bsr w) (w_bsm w) (w_bsn w).

Definition set_beta (w : weno) (b : mem dtype) : weno :=
  mkweno (w_k w) (w_nx w) (w_nc w) (w_nxi w) (w_x w) (w_xi w)
         (w_c_irj_x w) (w_c_ilrj w) b
         (w_csi w) (w_csl w) (w_csr w) (w_csj w)
         (w_bsi w) (w_bsr w) (w_bsm w) (w_bsn w).

(** [weno_recon_polys], loop by loop. *)
Definition xlocal_fill (k : Z) (x : mem dtype) (il i : Z) : list dtype :=
  map (fun j => (x (i - il + j)%Z - x i)%float) (zrange 0 (2 * k)).

Definition prd_n_body (xlocal : list dtype) (il r l m : Z)
    (prd_n : poly) (n : Z) : poly :=
  if (n =? l) || (n =? m) then prd_n
  else inplace_poly_mult_xpa prd_n (- znth xlocal (il - r + n)%Z)%float.

Definition prd_n_loop (k : Z) (xlocal : list dtype) (il r l m : Z) : poly :=
  fold_left (prd_n_body xlocal il r l m)
            (zrange 0 (k + 1)) (poly_one (k - 1)).

Definition sum_m_loop (k : Z) (xlocal : list dtype) (il r l : Z) : poly :=
  fold_left
    (fun sum_m m =>
       if m =? l then sum_m
       else inplace_poly_add sum_m (prd_n_loop k xlocal il r l m))
    (zrange 0 (k + 1)) (poly_zero (k - 1)).

Definition a_loop (k : Z) (xlocal : list dtype) (il r l : Z) : dtype :=
  fold_left
    (fun a m =>
       if m =? l then a
       else (a * (znth xlocal (il - r + l)%Z - znth xlocal (il - r + m)%Z))%float)
    (zrange 0 (k + 1)) 1%float.

Definition recon_polys_l (k : Z) (xlocal : list dtype) (il r irj : Z)
    (c : mem poly) (l : Z) : mem poly :=
  let sum_m := sum_m_loop k xlocal il r l in
  let a := a_loop k xlocal il r l in
  let a := (1 / a)%float in
  let sum_m := inplace_poly_scale sum_m a in
  store c irj (inplace_poly_add (c irj) sum_m).

Definition recon_polys_j (k : Z) (xlocal : list dtype) (il i r : Z)
    (c : mem poly) (j : Z) : mem poly :=
  let irj := i * k * k + r * k + j in
  let c := store c irj (poly_zero (k - 1)) in
  fold_left (recon_polys_l k xlocal il r irj) (zrange (j + 1) (k + 1)) c.

Definition recon_polys_r (k : Z) (xlocal : list dtype) (il i : Z)
    (c : mem poly) (r : Z) : mem poly :=
  fold_left (recon_polys_j k xlocal il i r) (zrange 0 k) c.

Definition recon_polys_i (k : Z) (x : mem dtype) (il : Z)
    (c : mem poly) (i : Z) : mem poly :=
  let xlocal := xlocal_fill k x il i in
  fold_left (recon_polys_r k xlocal il i) (zrange 0 k) c.

Definition weno_recon_polys (w0 : weno) : weno :=
  let w := w0 in
  let il := w_k w - 1 in
  set_c_irj_x w
    (fold_left (recon_polys_i (w_k w) (w_x w) il)
               (zrange (w_k w - 1) (w_nc w - (w_k w - 1)))
               (w_c_irj_x w)).

(** [weno_smoothness_coefs], loop by loop. *)
Definition smoothness_d (multi : Z) (dx : dtype) (st : poly * poly * dtype)
    (d : Z) : poly * poly * dtype :=
  let '(pm, pn, l2) := st in
  let pm := poly_diff pm 1 in
  let pn := poly_diff pn 1 in
  let l2 := (l2 + of_nat (Z.to_nat multi) * pow dx (Z.to_nat (2 * d - 1)%Z)
                  * poly_int (poly_mult pm pn) 0 dx)%float in
  (pm, pn, l2).

Definition smoothness_n (w : weno) (dx : dtype) (i r m irm : Z)
    (b : mem dtype) (n : Z) : mem dtype :=
  let irn := i * w_k w * w_k w + r * w_k w + n in
  let multi := if m =? n then 1 else 2 in
  let pm := w_c_irj_x w irm in
  let pn := w_c_irj_x w irn in
  let l2 := 0%float in
  let '(_, _, l2) :=
    fold_left (smoothness_d multi dx) (zrange 1 (w_k w)) (pm, pn, l2) in
  store b (w_bsi w * i + w_bsr w * r + w_bsm w * m + w_bsn w * n) l2.

Definition smoothness_m (w : weno) (dx : dtype) (i r : Z)
    (b : mem dtype) (m : Z) : mem dtype :=
  let irm := i * w_k w * w_k w + r * w_k w + m in
  fold_left (smoothness_n w dx i r m irm) (zrange m (w_k w)) b.

Definition smoothness_r (w : weno) (dx : dtype) (i : Z)
    (b : mem dtype) (r : Z) : mem dtype :=
  fold_left (smoothness_m w dx i r) (zrange 0 (w_k w)) b.

Definition smoothness_i (w : weno) (b : mem dtype) (i : Z) : mem dtype :=
  let dx := (w_x w (i + 1)%Z - w_x w i)%float in
  fold_left (smoothness_r w dx i) (zrange 0 (w_k w)) b.

Definition weno_smoothness_coefs (w0 : weno) : weno :=
  let w := w0 in
  set_beta w
    (fold_left (smoothness_i w)
               (zrange (w_k w - 1) (w_nc w - (w_k w - 1)))
               (w_beta w)).

(** [calloc]: every [poly] has [n = 0] and coefficient 0. *)
Definition calloc_poly : mem poly := fun _ => mkpoly 0 [0%float].

(** A strictly increasing grid of seven doubles, [k = 3], contiguous
    tensors. *)
Definition ex_x : mem dtype :=
  fun z => znth [0; 1; 2; 3; 10000000000000000; 10000000000000002;
                 10000000000000004]%float z.

Definition ex_w : weno :=
  mkweno 3 7 6 1 ex_x (fun _ => 0%float) calloc_poly
         (fun _ => 0%float) (fun _ => 0%float)
         9 9 3 1 27 9 3 1.

End Binary64.

(** * Properties *)

(** ** Loop ranges and folds *)

Section Loops.

Lemma zrange_In (lo hi z : Z) : In z (zrange lo hi) <-> lo <= z < hi.
Proof.
  unfold zrange. rewrite in_map_iff. split.
  - intros [n [<- Hn]]. apply in_seq in Hn. lia.
  - intros Hz. exists (Z.to_nat (z - lo)). split; [lia|].
    apply in_seq. lia.
Qed.

Lemma zrange_nil (lo hi : Z) : hi <= lo -> zrange lo hi = [].
Proof.
  intros H. unfold zrange.
  replace (Z.to_nat (hi - lo)) with O by lia. reflexivity.
Qed.

Lemma zrange_cons (lo hi : Z) :
  lo < hi -> zrange lo hi = lo :: zrange (lo + 1) hi.
Proof.
  intros H. unfold zrange.
  replace (Z.to_nat (hi - lo)) with (S (Z.to_nat (hi - (lo + 1)))) by lia.
  cbn [seq map]. f_equal; [lia|].
  rewrite <- seq_shift, map_map.
  apply map_ext. intros n. lia.
Qed.


Lemma zrange_length (lo hi : Z) : length (zrange lo hi) = Z.to_nat (hi - lo).
Proof. unfold zrange. now rewrite length_map, length_seq. Qed.

(** Induction over the values of a loop counter, from [lo] upwards. *)
Lemma zrange_ind (P : Z -> Z -> Prop) :
  (forall lo hi, hi <= lo -> P lo hi) ->
  (forall lo hi, lo < hi -> P (lo + 1) hi -> P lo hi) ->
  forall lo hi, P lo hi.
Proof.
  intros Hnil Hcons lo hi.
  remember (Z.to_nat (hi - lo)) as len eqn:Hlen.
  revert lo Hlen. induction len as [|len IH]; intros lo Hlen.
  - apply Hnil. lia.
  - apply Hcons; [lia|]. apply IH. lia.
Qed.

Lemma zrange_NoDup (lo hi : Z) : NoDup (zrange lo hi).
Proof.
  revert lo hi. apply (zrange_ind (fun lo hi => NoDup (zrange lo hi))).
  - intros lo hi H. rewrite zrange_nil by assumption. constructor.
  - intros lo hi H IH. rewrite zrange_cons by assumption.
    constructor; [|assumption]. rewrite zrange_In. lia.
Qed.

Context {S A : Type}.

(** A loop invariant: it holds at entry and every iteration keeps it. *)
Lemma fold_left_inv (P : S -> Prop) (f : S -> A -> S) (l : list A) (s : S) :
  P s -> (forall s' a, In a l -> P s' -> P (f s' a)) ->
  P (fold_left f l s).
Proof.
  revert s. induction l as [|a l IH]; intros s Hs Hstep; cbn; [assumption|].
  apply IH.
  - apply Hstep; [now left | assumption].
  - intros s' b Hb. apply Hstep. now right.
Qed.

(** Two loops whose bodies agree on the values of the counter agree. *)
Lemma fold_left_ext_in (f g : S -> A -> S) (l : list A) (s : S) :
  (forall s' a, In a l -> f s' a = g s' a) ->
  fold_left f l s = fold_left g l s.
Proof.
  revert s. induction l as [|a l IH]; intros s H; cbn; [reflexivity|].
  rewrite H by now left. apply IH. intros s' b Hb. apply H. now right.
Qed.

(** A body guarded by [continue] runs the loop over the remaining values. *)
Lemma fold_left_continue (skip : A -> bool) (f : S -> A -> S)
    (l : list A) (s : S) :
  fold_left (fun s' a => if skip a then s' else f s' a) l s
  = fold_left f (filter (fun a => negb (skip a)) l) s.
Proof.
  revert s. induction l as [|a l IH]; intros s; cbn; [reflexivity|].
  destruct (skip a); cbn; apply IH.
Qed.

Lemma fold_left_flat_map {B : Type} (f : S -> B -> S) (g : A -> list B)
    (l : list A) (s : S) :
  fold_left f (flat_map g l) s = fold_left (fun s' a => fold_left f (g a) s') l s.
Proof.
  revert s. induction l as [|a l IH]; intros s; cbn; [reflexivity|].
  now rewrite fold_left_app, IH.
Qed.

Lemma fold_left_map {B : Type} (f : S -> B -> S) (g : A -> B)
    (l : list A) (s : S) :
  fold_left f (map g l) s = fold_left (fun s' a => f s' (g a)) l s.
Proof.
  revert s. induction l as [|a l IH]; intros s; cbn; [reflexivity|]. apply IH.
Qed.

End Loops.

Section Memory.

Context {A : Type}.

Lemma store_same (m : mem A) (a : Z) (v : A) : store m a v a = v.
Proof. unfold store. now rewrite Z.eqb_refl. Qed.

Lemma store_other (m : mem A) (a b : Z) (v : A) :
  b <> a -> store m a v b = m b.
Proof. intros H. unfold store. now apply Z.eqb_neq in H as ->. Qed.

(** A loop whose iterations never assign to cell [a] leaves it as it was. *)
Lemma fold_left_frame {B : Type} (f : mem A -> B -> mem A) (l : list B)
    (m : mem A) (a : Z) :
  (forall m' b, In b l -> f m' b a = m' a) ->
  fold_left f l m a = m a.
Proof.
  intros H.
  apply (fold_left_inv (fun m' => m' a = m a)); [reflexivity|].
  intros m' b Hb Hm. now rewrite H.
Qed.

(** A loop that keeps assigning to one cell [a] behaves on that cell like a
    loop on a local variable. *)
Lemma fold_store_at {B : Type} (F : A -> B -> A) (a : Z) (ls : list B) :
  forall m : mem A,
    let m' := fold_left (fun m l => store m a (F (m a) l)) ls m in
    m' a = fold_left F ls (m a) /\ forall b, b <> a -> m' b = m b.
Proof.
  induction ls as [|l ls IH]; intros m; cbn [fold_left].
  - split; auto.
  - destruct (IH (store m a (F (m a) l))) as [Hat Hoff]. split.
    + now rewrite Hat, store_same.
    + intros b Hb. now rewrite Hoff, store_other by assumption.
Qed.

(** When each iteration [y] writes only the cell [addr y], and leaves there a
    value satisfying [P y], the cell of an iteration whose address no other
    iteration shares satisfies [P y] when the loop ends. *)
Lemma fold_left_written {B : Type} (f : mem A -> B -> mem A) (addr : B -> Z)
    (P : B -> A -> Prop) :
  (forall m y b, b <> addr y -> f m y b = m b) ->
  (forall m y, P y (f m y (addr y))) ->
  forall (l : list B) (m : mem A) (y : B),
    In y l ->
    (forall y', In y' l -> addr y' = addr y -> y' = y) ->
    P y (fold_left f l m (addr y)).
Proof.
  intros Hframe Hhit l m y. induction l as [|yl l IH] using rev_ind;
    intros Hin Hinj; [destruct Hin|].
  rewrite fold_left_app. cbn [fold_left].
  destruct (Z.eq_dec (addr yl) (addr y)) as [Heq|Hne].
  - assert (yl = y) as -> by (apply Hinj; [apply in_or_app; right; now left|assumption]).
    apply Hhit.
  - rewrite Hframe by congruence. apply IH.
    + apply in_app_or in Hin as [Hin|[->|[]]]; [assumption|congruence].
    + intros y' Hy'. apply Hinj. apply in_or_app. now left.
Qed.

(** ... and a cell that is the address of no iteration is left as it was. *)
Lemma fold_left_unwritten {B : Type} (f : mem A -> B -> mem A) (addr : B -> Z) :
  (forall m y b, b <> addr y -> f m y b = m b) ->
  forall (l : list B) (m : mem A) (a : Z),
    (forall y, In y l -> a <> addr y) ->
    fold_left f l m a = m a.
Proof.
  intros Hframe l m a Ha. apply fold_left_frame.
  intros m' y Hy. apply Hframe. now apply Ha.
Qed.

End Memory.

(** ** Finite sums and products *)

Section Sums.

Local Open Scope R_scope.
Context {A : Type}.

Lemma sumR_nil (f : A -> R) : sumR f [] = 0.
Proof. reflexivity. Qed.

Lemma sumR_cons (f : A -> R) (a : A) (l : list A) :
  sumR f (a :: l) = f a + sumR f l.
Proof. reflexivity. Qed.

Lemma prodR_cons (f : A -> R) (a : A) (l : list A) :
  prodR f (a :: l) = f a * prodR f l.
Proof. reflexivity. Qed.

Lemma sumR_app (f : A -> R) (l1 l2 : list A) :
  sumR f (l1 ++ l2) = sumR f l1 + sumR f l2.
Proof.
  induction l1 as [|a l1 IH]; [cbn [app]; rewrite sumR_nil; lra|].
  cbn [app]. rewrite !sumR_cons, IH. lra.
Qed.

Lemma sumR_ext (f g : A -> R) (l : list A) :
  (forall z, In z l -> f z = g z) -> sumR f l = sumR g l.
Proof.
  induction l as [|a l IH]; intros H; [reflexivity|].
  rewrite !sumR_cons, (H a) by now left. rewrite IH; [reflexivity|].
  intros z Hz. apply H. now right.
Qed.

Lemma sumR_zero (f : A -> R) (l : list A) :
  (forall z, In z l -> f z = 0) -> sumR f l = 0.
Proof.
  induction l as [|a l IH]; intros H; [reflexivity|].
  rewrite sumR_cons, (H a) by now left. rewrite IH; [lra|].
  intros z Hz. apply H. now right.
Qed.

Lemma sumR_plus (f g : A -> R) (l : list A) :
  sumR (fun z => f z + g z) l = sumR f l + sumR g l.
Proof.
  induction l as [|a l IH]; [rewrite !sumR_nil; lra|].
  rewrite !sumR_cons, IH. lra.
Qed.

Lemma sumR_scal (a : R) (f : A -> R) (l : list A) :
  sumR (fun z => a * f z) l = a * sumR f l.
Proof.
  induction l as [|b l IH]; [rewrite !sumR_nil; lra|].
  rewrite !sumR_cons, IH. lra.
Qed.


Lemma sumR_map {B : Type} (h : B -> A) (f : A -> R) (l : list B) :
  sumR f (map h l) = sumR (fun z => f (h z)) l.
Proof.
  induction l as [|b l IH]; [reflexivity|].
  cbn [map]. now rewrite !sumR_cons, IH.
Qed.

Lemma prodR_ext (f g : A -> R) (l : list A) :
  (forall z, In z l -> f z = g z) -> prodR f l = prodR g l.
Proof.
  induction l as [|a l IH]; intros H; [reflexivity|].
  rewrite !prodR_cons, (H a) by now left. rewrite IH; [reflexivity|].
  intros z Hz. apply H. now right.
Qed.

End Sums.

Section SumsOverSeq.

Local Open Scope R_scope.

Lemma sumR_seq_S (f : nat -> R) (s n : nat) :
  sumR f (seq s (S n)) = sumR f (seq s n) + f (s + n)%nat.
Proof. rewrite seq_S, sumR_app, sumR_cons, sumR_nil. lra. Qed.

Lemma sumR_seq_shift (f : nat -> R) (s n : nat) :
  sumR f (seq (S s) n) = sumR (fun z => f (S z)) (seq s n).
Proof. now rewrite <- seq_shift, sumR_map. Qed.

Lemma sumR_seq_first (f : nat -> R) (s n : nat) :
  sumR f (seq s (S n)) = f s + sumR (fun z => f (S z)) (seq s n).
Proof. cbn [seq]. now rewrite sumR_cons, sumR_seq_shift. Qed.

(** Terms beyond [n] that vanish do not change a sum. *)
Lemma sumR_seq_extend (f : nat -> R) (n m : nat) :
  (forall z, (n <= z)%nat -> f z = 0) ->
  sumR f (seq 0 (n + m)) = sumR f (seq 0 n).
Proof.
  intros H. rewrite seq_app, sumR_app.
  rewrite (sumR_zero f (seq (0 + n) m)); [lra|].
  intros z Hz. apply in_seq in Hz. apply H. lia.
Qed.

End SumsOverSeq.

(** ** Arrays *)

Section Arrays.

Context {A : Type}.

Lemma upd_length (l : list A) (z : nat) (v : A) :
  length (upd l z v) = length l.
Proof. revert z. induction l as [|h t IH]; intros [|z]; cbn; auto. Qed.

Lemma nth_upd_same (l : list A) (z : nat) (v d : A) :
  (z < length l)%nat -> nth z (upd l z v) d = v.
Proof.
  revert z. induction l as [|h t IH]; intros [|z] H; cbn in *;
    try lia; [reflexivity|]. apply IH. lia.
Qed.

Lemma nth_upd_other (l : list A) (z z' : nat) (v d : A) :
  z' <> z -> nth z' (upd l z v) d = nth z' l d.
Proof.
  revert z z'. induction l as [|h t IH]; intros [|z] [|z'] H; cbn;
    try reflexivity; try congruence. apply IH. congruence.
Qed.

Lemma fold_left_rev {B : Type} (f : B -> A -> B) (l : list A) (s : B) :
  fold_left f (rev l) s = fold_right (fun a s' => f s' a) s l.
Proof.
  induction l as [|a l IH]; cbn; [reflexivity|].
  now rewrite fold_left_app, IH.
Qed.

End Arrays.

(** ** The in-place macros, coefficient by coefficient *)

Section Macros.

Local Open Scope R_scope.

Lemma coef_set_coef_same (p : poly) (z : nat) (v : R) :
  (z < length (poly_p p))%nat -> coef (set_coef p z v) z = v.
Proof. intros H. unfold coef, set_coef. cbn. now apply nth_upd_same. Qed.

Lemma coef_set_coef_other (p : poly) (z z' : nat) (v : R) :
  z' <> z -> coef (set_coef p z v) z' = coef p z'.
Proof. intros H. unfold coef, set_coef. cbn. now apply nth_upd_other. Qed.

Lemma length_set_coef (p : poly) (z : nat) (v : R) :
  length (poly_p (set_coef p z v)) = length (poly_p p).
Proof. unfold set_coef. cbn. apply upd_length. Qed.

Lemma coef_beyond (p : poly) (z : nat) :
  wf p -> (poly_n p < z)%nat -> coef p z = 0.
Proof. intros Hwf Hz. unfold coef. apply nth_overflow. rewrite Hwf. lia. Qed.

(** A loop that rewrites each coefficient of [zs] from its own old value. *)
Lemma pointwise_loop (g : nat -> R -> R) (zs : list nat) :
  NoDup zs ->
  forall p : poly,
    let q := fold_left (fun q z => set_coef q z (g z (coef q z))) zs p in
    poly_n q = poly_n p /\
    length (poly_p q) = length (poly_p p) /\
    (forall z, In z zs -> (z < length (poly_p p))%nat ->
               coef q z = g z (coef p z)) /\
    (forall z, ~ In z zs -> coef q z = coef p z).
Proof.
  induction 1 as [|a zs Ha Hnd IH]; intros p; cbn.
  - repeat split; intros; tauto.
  - destruct (IH (set_coef p a (g a (coef p a)))) as (Hn & Hlen & Hin & Hout).
    rewrite length_set_coef in Hlen, Hin.
    repeat split.
    + exact Hn.
    + exact Hlen.
    + intros z [<- | Hz] Hlt.
      * rewrite Hout by assumption. now apply coef_set_coef_same.
      * rewrite Hin by assumption.
        rewrite coef_set_coef_other; [reflexivity|]. congruence.
    + intros z Hz. rewrite Hout by tauto.
      apply coef_set_coef_other. intros ->. apply Hz. now left.
Qed.

Lemma add_spec (p1 p2 : poly) :
  wf p1 ->
  let q := inplace_poly_add p1 p2 in
  poly_n q = poly_n p1 /\ wf q /\
  (forall z, (z <= poly_n p1)%nat -> coef q z = coef p1 z + coef p2 z).
Proof.
  intros Hwf.
  destruct (pointwise_loop (fun z c => c + coef p2 z) (up_to (poly_n p1))
              (seq_NoDup _ _) p1) as (Hn & Hlen & Hin & _).
  fold (inplace_poly_add p1 p2) in Hn, Hlen, Hin.
  repeat split.
  - exact Hn.
  - unfold wf in *. congruence.
  - intros z Hz. apply Hin.
    + apply in_seq. lia.
    + rewrite Hwf. lia.
Qed.

Lemma scale_spec (p : poly) (a : R) :
  wf p ->
  let q := inplace_poly_scale p a in
  poly_n q = poly_n p /\ wf q /\
  (forall z, (z <= poly_n p)%nat -> coef q z = coef p z * a).
Proof.
  intros Hwf.
  destruct (pointwise_loop (fun z c => c * a) (up_to (poly_n p))
              (seq_NoDup _ _) p) as (Hn & Hlen & Hin & _).
  fold (inplace_poly_scale p a) in Hn, Hlen, Hin.
  repeat split.
  - exact Hn.
  - unfold wf in *. congruence.
  - intros z Hz. apply Hin.
    + apply in_seq. lia.
    + rewrite Hwf. lia.
Qed.

(** The descending loop of [inplace_poly_mult_xpa]: when it reaches [z], the
    cells [z] and [z-1] still hold their old values. *)
Lemma mult_xpa_loop (a : R) (len s : nat) (p : poly) :
  let q := fold_right
             (fun z q => set_coef q z (coef q (z - 1) + a * coef q z))
             p (seq s len) in
  poly_n q = poly_n p /\
  length (poly_p q) = length (poly_p p) /\
  (forall z, (z < s)%nat -> coef q z = coef p z) /\
  (forall z, (s <= z < s + len)%nat -> (z < length (poly_p p))%nat ->
             coef q z = coef p (z - 1) + a * coef p z) /\
  (forall z, (s + len <= z)%nat -> coef q z = coef p z).
Proof.
  revert s. induction len as [|len IH]; intros s; cbn [seq fold_right].
  - repeat split; intros; try reflexivity; lia.
  - destruct (IH (S s)) as (Hn & Hlen & Hlow & Hmid & Hhigh).
    repeat split.
    + exact Hn.
    + rewrite length_set_coef. exact Hlen.
    + intros z Hz. rewrite coef_set_coef_other by lia. apply Hlow. lia.
    + intros z Hz Hlt. destruct (Nat.eq_dec z s) as [->|Hne].
      * rewrite coef_set_coef_same by (rewrite Hlen; exact Hlt).
        rewrite !Hlow by lia. reflexivity.
      * rewrite coef_set_coef_other by assumption. apply Hmid; lia.
    + intros z Hz. rewrite coef_set_coef_other by lia. apply Hhigh. lia.
Qed.

Lemma mult_xpa_spec (p : poly) (a : R) :
  wf p ->
  let q := inplace_poly_mult_xpa p a in
  poly_n q = poly_n p /\ wf q /\
  coef q 0 = a * coef p 0 /\
  (forall z, (S z <= poly_n p)%nat -> coef q (S z) = coef p z + a * coef p (S z)).
Proof.
  intros Hwf. unfold inplace_poly_mult_xpa, down_to_1.
  rewrite fold_left_rev.
  destruct (mult_xpa_loop a (poly_n p) 1 p) as (Hn & Hlen & Hlow & Hmid & _).
  cbv zeta in *.
  set (q := fold_right _ p (seq 1 (poly_n p))) in *.
  repeat split.
  - exact Hn.
  - unfold wf in *. rewrite length_set_coef. cbn. congruence.
  - rewrite coef_set_coef_same by (rewrite Hlen, Hwf; lia).
    now rewrite Hlow by lia.
  - intros z Hz. rewrite coef_set_coef_other by lia.
    rewrite Hmid by (rewrite ?Hwf; lia).
    now replace (S z - 1)%nat with z by lia.
Qed.

End Macros.

(** ** The polynomial each operation stands for *)

Section Values.

Local Open Scope R_scope.

Lemma poly_value_ext (p q : poly) (t : R) :
  poly_n p = poly_n q ->
  (forall z, (z <= poly_n p)%nat -> coef p z = coef q z) ->
  poly_value p t = poly_value q t.
Proof.
  intros Hn Hc. unfold poly_value. rewrite <- Hn.
  apply sumR_ext. intros z Hz. apply in_seq in Hz.
  rewrite Hc by lia. reflexivity.
Qed.

Lemma wf_zero (n : Z) : wf (poly_zero n).
Proof. unfold wf, poly_zero. cbn. now rewrite repeat_length. Qed.

Lemma wf_one (n : Z) : wf (poly_one n).
Proof. unfold wf, poly_one. cbn. now rewrite repeat_length. Qed.

Lemma coef_zero (n : Z) (z : nat) : coef (poly_zero n) z = 0.
Proof. unfold coef, poly_zero. cbn [poly_p]. apply nth_repeat. Qed.

Lemma coef_one_0 (n : Z) : coef (poly_one n) 0 = 1.
Proof. reflexivity. Qed.

Lemma coef_one_S (n : Z) (z : nat) : coef (poly_one n) (S z) = 0.
Proof. unfold coef, poly_one. cbn [poly_p nth]. apply nth_repeat. Qed.

Lemma value_zero (n : Z) (t : R) : poly_value (poly_zero n) t = 0.
Proof.
  unfold poly_value. apply sumR_zero. intros z _.
  rewrite coef_zero. lra.
Qed.

Lemma value_one (n : Z) (t : R) : poly_value (poly_one n) t = 1.
Proof.
  unfold poly_value, up_to. cbn [seq]. rewrite sumR_cons, sumR_zero.
  - rewrite coef_one_0. cbn. lra.
  - intros z Hz. apply in_seq in Hz. destruct z as [|z]; [lia|].
    rewrite coef_one_S. lra.
Qed.

Lemma value_add (p1 p2 : poly) (t : R) :
  wf p1 -> poly_n p2 = poly_n p1 ->
  poly_value (inplace_poly_add p1 p2) t = poly_value p1 t + poly_value p2 t.
Proof.
  intros Hwf Hn2. destruct (add_spec p1 p2 Hwf) as (Hn & _ & Hc).
  unfold poly_value. rewrite Hn, Hn2, <- sumR_plus.
  apply sumR_ext. intros z Hz. apply in_seq in Hz.
  rewrite Hc by lia. lra.
Qed.

Lemma value_scale (p : poly) (a t : R) :
  wf p -> poly_value (inplace_poly_scale p a) t = a * poly_value p t.
Proof.
  intros Hwf. destruct (scale_spec p a Hwf) as (Hn & _ & Hc).
  unfold poly_value. rewrite Hn, <- sumR_scal.
  apply sumR_ext. intros z Hz. apply in_seq in Hz.
  rewrite Hc by lia. lra.
Qed.

(** [inplace_poly_mult_xpa] yields (x + a) p(x) less the one term, of degree
    [n+1], that does not fit the array. *)
Lemma value_mult_xpa (p : poly) (a t : R) :
  wf p ->
  poly_value (inplace_poly_mult_xpa p a) t
  = (t + a) * poly_value p t - coef p (poly_n p) * t ^ S (poly_n p).
Proof.
  intros Hwf. destruct (mult_xpa_spec p a Hwf) as (Hn & _ & H0 & HS).
  unfold poly_value. rewrite Hn. unfold up_to.
  set (n := poly_n p) in *.
  set (V := sumR (fun z => coef p z * t ^ z) (seq 0 (S n))).
  set (A := sumR (fun z => coef p z * t ^ z) (seq 0 n)).
  set (B := sumR (fun z => coef p (S z) * t ^ S z) (seq 0 n)).
  (* the sum of the old coefficients, split at either end *)
  assert (Hlast : V = A + coef p n * t ^ n)
    by (unfold V; rewrite sumR_seq_S; reflexivity).
  assert (Hfirst : V = coef p 0 * 1 + B)
    by (unfold V; cbn [seq]; rewrite sumR_cons, sumR_seq_shift; reflexivity).
  (* the sum of the new coefficients *)
  cbn [seq]. rewrite sumR_cons, sumR_seq_shift, H0.
  rewrite (sumR_ext _ (fun z => t * (coef p z * t ^ z)
                                + a * (coef p (S z) * t ^ S z)) (seq 0 n)).
  - rewrite sumR_plus, !sumR_scal. fold A B.
    transitivity (t * (A + coef p n * t ^ n) + a * (coef p 0 * 1 + B)
                  - coef p n * t ^ S n); [cbn [pow]; ring|].
    rewrite <- Hlast, <- Hfirst. ring.
  - intros z Hz. apply in_seq in Hz. rewrite HS by lia. cbn [pow]. ring.
Qed.

(** Horner's scheme computes the value of the polynomial. *)
Lemma horner_loop (p : poly) (t : R) (len s : nat) :
  fold_right (fun z acc => coef p z + t * acc) (coef p (s + len)) (seq s len)
  = sumR (fun z => coef p (s + z) * t ^ z) (seq 0 (S len)).
Proof.
  revert s. induction len as [|len IH]; intros s.
  - cbn. rewrite Nat.add_0_r. lra.
  - rewrite (sumR_seq_first _ 0 (S len)).
    cbn [seq fold_right].
    replace (s + S len)%nat with (S s + len)%nat by lia.
    rewrite IH, <- sumR_scal.
    rewrite Nat.add_0_r. cbn [pow].
    replace (coef p s * 1) with (coef p s) by lra. f_equal.
    apply sumR_ext. intros z _.
    replace (s + S z)%nat with (S s + z)%nat by lia. lra.
Qed.

Lemma poly_eval_value (p : poly) (t : R) : poly_eval p t = poly_value p t.
Proof.
  unfold poly_eval. rewrite fold_left_rev.
  apply (horner_loop p t (poly_n p) 0).
Qed.

End Values.

(** ** The node indices left after the exclusions *)

Section Others.

Lemma filter_all {A : Type} (f : A -> bool) (l : list A) :
  (forall a, In a l -> f a = true) -> filter f l = l.
Proof.
  induction l as [|a l IH]; intros H; cbn; [reflexivity|].
  rewrite H by now left. f_equal. apply IH. intros b Hb. apply H. now right.
Qed.

Lemma filter_out_length (L : list Z) (l : Z) :
  NoDup L -> In l L ->
  S (length (filter (fun n => negb (n =? l)) L)) = length L.
Proof.
  induction 1 as [|a L Ha Hnd IH]; intros Hin; [destruct Hin|].
  cbn [filter]. destruct (Z.eqb_spec a l) as [->|Hne]; cbn [negb length].
  - f_equal. rewrite filter_all; [reflexivity|].
    intros b Hb. apply negb_true_iff, Z.eqb_neq. intros ->. contradiction.
  - f_equal. apply IH. destruct Hin as [?|?]; [contradiction|assumption].
Qed.

Lemma others2_others (k l m : Z) :
  others2 k l m = filter (fun n => negb (n =? m)) (others k l).
Proof.
  unfold others2, others. induction (zrange 0 (k + 1)) as [|a L IH];
    cbn [filter]; [reflexivity|].
  destruct (a =? l); cbn [negb orb filter]; [exact IH|].
  destruct (a =? m); cbn [negb]; now rewrite IH.
Qed.

Lemma others_In (k l m : Z) : In m (others k l) <-> 0 <= m <= k /\ m <> l.
Proof.
  unfold others. rewrite filter_In, zrange_In, negb_true_iff, Z.eqb_neq. lia.
Qed.

Lemma others2_In (k l m n : Z) :
  In n (others2 k l m) <-> 0 <= n <= k /\ n <> l /\ n <> m.
Proof.
  unfold others2.
  rewrite filter_In, zrange_In, negb_true_iff, orb_false_iff, !Z.eqb_neq. lia.
Qed.

Lemma others_length (k l : Z) :
  0 <= l <= k -> length (others k l) = Z.to_nat k.
Proof.
  intros Hl.
  assert (H : S (length (others k l)) = length (zrange 0 (k + 1))).
  { apply filter_out_length; [apply zrange_NoDup | apply zrange_In; lia]. }
  rewrite zrange_length in H. lia.
Qed.

(** Exactly [k-1] node indices are left once [l] and [m] are excluded. *)
Lemma others2_length (k l m : Z) :
  0 <= l <= k -> 0 <= m <= k -> l <> m ->
  length (others2 k l m) = Z.to_nat (k - 1).
Proof.
  intros Hl Hm Hlm.
  assert (H : S (length (others2 k l m)) = length (others k l)).
  { rewrite others2_others. apply filter_out_length.
    - apply NoDup_filter, zrange_NoDup.
    - apply others_In. lia. }
  rewrite others_length in H by assumption. lia.
Qed.

End Others.

(** ** The loops of [weno_recon_polys] *)

Section ReconPolys.

Local Open Scope R_scope.

Lemma mult_xpa_degree (p : poly) (a : R) (d : nat) :
  wf p -> degree_lt p d -> degree_lt (inplace_poly_mult_xpa p a) (S d).
Proof.
  intros Hwf Hd z Hz.
  destruct (mult_xpa_spec p a Hwf) as (Hn & Hwfq & _ & HS).
  destruct z as [|z]; [lia|].
  destruct (le_dec (S z) (poly_n p)) as [Hle|Hgt].
  - rewrite HS by assumption. rewrite !Hd by lia. lra.
  - apply coef_beyond; [assumption|]. rewrite Hn. lia.
Qed.

(** Below the degree budget nothing is cut off. *)
Lemma mult_xpa_exact (p : poly) (a t : R) :
  wf p -> degree_lt p (poly_n p) ->
  poly_value (inplace_poly_mult_xpa p a) t = (t + a) * poly_value p t.
Proof.
  intros Hwf Hd. rewrite value_mult_xpa by assumption.
  rewrite (Hd (poly_n p)) by lia. lra.
Qed.

(** A run of binomial factors applied to a polynomial of small enough degree. *)
Lemma prd_fold (a : Z -> R) (ns : list Z) :
  forall (p : poly) (d : nat),
    wf p -> degree_lt p d -> (d + length ns <= S (poly_n p))%nat ->
    let q := fold_left (fun p n => inplace_poly_mult_xpa p (a n)) ns p in
    wf q /\ poly_n q = poly_n p /\ degree_lt q (d + length ns) /\
    forall t, poly_value q t = prodR (fun n => t + a n) ns * poly_value p t.
Proof.
  induction ns as [|n ns IH]; intros p d Hwf Hd Hlen; cbn [fold_left length].
  - rewrite Nat.add_0_r. repeat split; try assumption.
    intros t. cbn. lra.
  - cbn [length] in Hlen.
    destruct (mult_xpa_spec p (a n) Hwf) as (Hn & Hwfq & _).
    destruct (IH (inplace_poly_mult_xpa p (a n)) (S d) Hwfq
                 (mult_xpa_degree p (a n) d Hwf Hd)) as (Hwf' & Hn' & Hd' & Hv).
    { rewrite Hn. lia. }
    repeat split.
    + exact Hwf'.
    + congruence.
    + replace (d + S (length ns))%nat with (S d + length ns)%nat by lia.
      exact Hd'.
    + intros t. rewrite Hv, prodR_cons, mult_xpa_exact; [ring|assumption|].
      intros z Hz. apply Hd. lia.
Qed.

Lemma degree_lt_one (n : Z) : degree_lt (poly_one n) 1.
Proof. intros [|z] Hz; [lia|]. apply coef_one_S. Qed.

Lemma degree_lt_mono (p : poly) (d d' : nat) :
  (d <= d')%nat -> degree_lt p d -> degree_lt p d'.
Proof. intros Hle Hd z Hz. apply Hd. lia. Qed.

Lemma prd_n_body_continue (xlocal : list R) (il r l m : Z)
    (ns : list Z) (p : poly) :
  fold_left (prd_n_body xlocal il r l m) ns p
  = fold_left
      (fun q n => inplace_poly_mult_xpa q
                    (- znth xlocal (xlocal_index il r n)))
      (filter (fun n => negb ((n =? l) || (n =? m))) ns) p.
Proof.
  unfold prd_n_body.
  apply (fold_left_continue (fun n => (n =? l)%Z || (n =? m)%Z)%bool
           (fun q n => inplace_poly_mult_xpa q
                         (- znth xlocal (xlocal_index il r n)))).
Qed.

Lemma prd_n_loop_spec (k : Z) (xlocal : list R) (il r l m : Z) :
  (1 <= k)%Z -> (0 <= l <= k)%Z -> (0 <= m <= k)%Z -> l <> m ->
  let q := prd_n_loop k xlocal il r l m in
  wf q /\ poly_n q = Z.to_nat (k - 1) /\
  forall t, poly_value q t
            = prodR (fun n => t - znth xlocal (xlocal_index il r n))
                    (others2 k l m).
Proof.
  intros Hk Hl Hm Hlm. unfold prd_n_loop.
  rewrite prd_n_body_continue. fold (others2 k l m).
  destruct (prd_fold (fun n => - znth xlocal (xlocal_index il r n))
              (others2 k l m) (poly_one (k - 1)) 1
              (wf_one _) (degree_lt_one _)) as (Hwf & Hn & _ & Hv).
  { rewrite others2_length by assumption. cbn [poly_n poly_one]. lia. }
  repeat split.
  - exact Hwf.
  - exact Hn.
  - intros t. rewrite Hv, value_one.
    rewrite (prodR_ext _ (fun n => t - znth xlocal (xlocal_index il r n)));
      [ring|]. intros; ring.
Qed.

(** A run of [inplace_poly_add] onto an accumulator. *)
Lemma add_fold {A : Type} (g : A -> poly) (N : nat) (ms : list A) :
  forall p : poly,
    wf p -> poly_n p = N -> (forall m, In m ms -> poly_n (g m) = N) ->
    let q := fold_left (fun s m => inplace_poly_add s (g m)) ms p in
    wf q /\ poly_n q = N /\
    forall t, poly_value q t
              = poly_value p t + sumR (fun m => poly_value (g m) t) ms.
Proof.
  induction ms as [|m ms IH]; intros p Hwf Hn Hg; cbn [fold_left].
  - repeat split; try assumption. intros t. rewrite sumR_nil. lra.
  - destruct (add_spec p (g m) Hwf) as (Hn1 & Hwf1 & _).
    destruct (IH (inplace_poly_add p (g m)) Hwf1) as (Hwf' & Hn' & Hv).
    { congruence. }
    { intros m' Hm'. apply Hg. now right. }
    repeat split; try assumption.
    intros t. rewrite Hv, sumR_cons, value_add; [lra|assumption|].
    rewrite Hn. apply Hg. now left.
Qed.

Lemma sum_m_loop_spec (k : Z) (xlocal : list R) (il r l : Z) :
  (1 <= k)%Z -> (0 <= l <= k)%Z ->
  let q := sum_m_loop k xlocal il r l in
  wf q /\ poly_n q = Z.to_nat (k - 1) /\
  forall t, poly_value q t
            = sumR (fun m =>
                      prodR (fun n => t - znth xlocal (xlocal_index il r n))
                            (others2 k l m))
                   (others k l).
Proof.
  intros Hk Hl. unfold sum_m_loop.
  rewrite (fold_left_continue (fun m => (m =? l)%Z)
             (fun s m => inplace_poly_add s (prd_n_loop k xlocal il r l m))).
  fold (others k l).
  destruct (add_fold (fun m => prd_n_loop k xlocal il r l m)
              (Z.to_nat (k - 1)) (others k l) (poly_zero (k - 1))
              (wf_zero _) eq_refl) as (Hwf & Hn & Hv).
  { intros m Hm. apply others_In in Hm.
    apply prd_n_loop_spec; lia. }
  repeat split; try assumption.
  intros t. rewrite Hv, value_zero, Rplus_0_l.
  apply sumR_ext. intros m Hm. apply others_In in Hm.
  apply prd_n_loop_spec; lia.
Qed.

Lemma fold_left_mult {A : Type} (h : A -> R) (ms : list A) (a0 : R) :
  fold_left (fun a m => a * h m) ms a0 = a0 * prodR h ms.
Proof.
  revert a0. induction ms as [|m ms IH]; intros a0; cbn [fold_left].
  - cbn. lra.
  - rewrite IH, prodR_cons. ring.
Qed.

Lemma a_loop_spec (k : Z) (xlocal : list R) (il r l : Z) :
  a_loop k xlocal il r l
  = prodR (fun m => znth xlocal (xlocal_index il r l)
                    - znth xlocal (xlocal_index il r m))
          (others k l).
Proof.
  unfold a_loop.
  rewrite (fold_left_continue (fun m => (m =? l)%Z)
             (fun a m => a * (znth xlocal (xlocal_index il r l)
                              - znth xlocal (xlocal_index il r m)))).
  fold (others k l). rewrite fold_left_mult. ring.
Qed.

(** The polynomial left at [irj] by the iteration for [(i, r, j)], in terms
    of the local window. *)
Lemma recon_polys_j_spec (k : Z) (xlocal : list R) (il i r j : Z)
    (c : mem poly) :
  (1 <= k)%Z -> (0 <= j)%Z ->
  let irj := irj_offset k i r j in
  let c' := recon_polys_j k xlocal il i r c j in
  (forall b, b <> irj -> c' b = c b) /\
  wf (c' irj) /\ poly_n (c' irj) = Z.to_nat (k - 1) /\
  forall t,
    poly_value (c' irj) t
    = sumR (fun l =>
              sumR (fun m =>
                      prodR (fun n => t - znth xlocal (xlocal_index il r n))
                            (others2 k l m))
                   (others k l)
              * (1 / prodR (fun m => znth xlocal (xlocal_index il r l)
                                     - znth xlocal (xlocal_index il r m))
                           (others k l)))
           (zrange (j + 1) (k + 1)).
Proof.
  intros Hk Hj irj c'. subst c'. unfold recon_polys_j. cbv zeta.
  change (i * k * k + r * k + j)%Z with irj.
  set (g := fun l => inplace_poly_scale (sum_m_loop k xlocal il r l)
                       (1 / a_loop k xlocal il r l)).
  change (recon_polys_l k xlocal il r irj)
    with (fun (m : mem poly) l => store m irj (inplace_poly_add (m irj) (g l))).
  destruct (fold_store_at (fun p l => inplace_poly_add p (g l)) irj
              (zrange (j + 1) (k + 1)) (store c irj (poly_zero (k - 1))))
    as [Hat Hoff].
  cbv zeta in Hat, Hoff. rewrite store_same in Hat.
  assert (Hg : forall l, In l (zrange (j + 1) (k + 1)) ->
                 wf (sum_m_loop k xlocal il r l) /\
                 poly_n (g l) = Z.to_nat (k - 1)).
  { intros l Hl. apply zrange_In in Hl.
    destruct (sum_m_loop_spec k xlocal il r l) as (Hwf & Hn & _); [lia..|].
    split; [exact Hwf|]. unfold g.
    destruct (scale_spec (sum_m_loop k xlocal il r l)
                (1 / a_loop k xlocal il r l) Hwf) as (-> & _). exact Hn. }
  destruct (add_fold g (Z.to_nat (k - 1)) (zrange (j + 1) (k + 1))
              (poly_zero (k - 1)) (wf_zero _) eq_refl) as (Hwf & Hn & Hv).
  { intros l Hl. now apply Hg. }
  split; [|split; [|split]].
  - intros b Hb. rewrite Hoff by assumption. now apply store_other.
  - rewrite Hat. exact Hwf.
  - rewrite Hat. exact Hn.
  - intros t. rewrite Hat, Hv, value_zero, Rplus_0_l.
    apply sumR_ext. intros l Hl. destruct (Hg l Hl) as [Hwfl _].
    apply zrange_In in Hl. unfold g.
    rewrite value_scale by assumption.
    destruct (sum_m_loop_spec k xlocal il r l) as (_ & _ & ->); [lia..|].
    rewrite a_loop_spec. ring.
Qed.

(** Reading the local window inside its bounds. *)
Lemma znth_xlocal_fill (k : Z) (x : mem R) (il i idx : Z) :
  (0 <= idx < 2 * k)%Z ->
  znth (xlocal_fill k x il i) idx = x (x_index il i idx) - x i.
Proof.
  intros Hidx. unfold znth, xlocal_fill.
  destruct (Z.ltb_spec idx 0) as [Hneg|_]; [lia|].
  rewrite (nth_indep _ 0 (x (x_index il i 0%Z) - x i))
    by (rewrite length_map, zrange_length; lia).
  rewrite (map_nth (fun j => x (x_index il i j) - x i)).
  unfold zrange.
  rewrite (nth_indep _ 0%Z (0 + Z.of_nat 0)%Z)
    by (rewrite length_map, length_seq; lia).
  rewrite (map_nth (fun z => (0 + Z.of_nat z)%Z)), seq_nth by lia.
  do 3 f_equal. lia.
Qed.

Lemma znth_xlocal_node (k : Z) (x : mem R) (i r m : Z) :
  (0 <= r < k)%Z -> (0 <= m <= k)%Z ->
  znth (xlocal_fill k x (k - 1) i) (xlocal_index (k - 1) r m) = node x k i r m.
Proof.
  intros Hr Hm. rewrite znth_xlocal_fill by (unfold xlocal_index; lia).
  reflexivity.
Qed.

(** The three nested loops of [weno_recon_polys] as one loop over triples. *)
Lemma weno_recon_polys_flat (w : weno) :
  w_c_irj_x (weno_recon_polys w)
  = fold_left (recon_polys_at (w_k w) (w_x w))
              (polys_space (w_k w) (w_nc w)) (w_c_irj_x w).
Proof.
  unfold weno_recon_polys, polys_space, cells. cbn [w_c_irj_x set_c_irj_x].
  rewrite fold_left_flat_map. apply fold_left_ext_in. intros c i _.
  unfold recon_polys_i. rewrite fold_left_flat_map.
  apply fold_left_ext_in. intros c' r _.
  unfold recon_polys_r. now rewrite fold_left_map.
Qed.

Lemma polys_space_In (k nc i r j : Z) :
  In (i, r, j) (polys_space k nc)
  <-> (k - 1 <= i < nc - (k - 1) /\ 0 <= r < k /\ 0 <= j < k)%Z.
Proof.
  unfold polys_space, cells. rewrite in_flat_map. split.
  - intros (i' & Hi & H). apply in_flat_map in H as (r' & Hr & H).
    apply in_map_iff in H as (j' & Heq & Hj). inversion Heq; subst.
    apply zrange_In in Hi, Hr, Hj. lia.
  - intros (Hi & Hr & Hj). exists i. split; [apply zrange_In; lia|].
    apply in_flat_map. exists r. split; [apply zrange_In; lia|].
    apply in_map. apply zrange_In. lia.
Qed.

(** Distinct triples within the extents have distinct offsets in [c_irj_x]. *)
Lemma irj_offset_inj (k i r j i' r' j' : Z) :
  (0 <= r < k)%Z -> (0 <= j < k)%Z -> (0 <= r' < k)%Z -> (0 <= j' < k)%Z ->
  irj_offset k i r j = irj_offset k i' r' j' ->
  (i, r, j) = (i', r', j').
Proof.
  unfold irj_offset. intros Hr Hj Hr' Hj' H.
  assert (Hj2 : j = j').
  { assert (E : ((i * k + r) * k + j = (i' * k + r') * k + j')%Z) by lia.
    assert (E1 : (((i * k + r) * k + j) mod k = j)%Z)
      by (rewrite Z.add_comm, Z.mod_add, Z.mod_small; lia).
    assert (E2 : (((i' * k + r') * k + j') mod k = j')%Z)
      by (rewrite Z.add_comm, Z.mod_add, Z.mod_small; lia).
    congruence. }
  subst j'.
  assert (E : (i * k + r = i' * k + r')%Z) by nia.
  assert (Hr2 : r = r').
  { assert (E1 : ((i * k + r) mod k = r)%Z)
      by (rewrite Z.add_comm, Z.mod_add, Z.mod_small; lia).
    assert (E2 : ((i' * k + r') mod k = r')%Z)
      by (rewrite Z.add_comm, Z.mod_add, Z.mod_small; lia).
    congruence. }
  subst r'. assert (i = i') by nia. congruence.
Qed.

Lemma recon_polys_at_frame (k : Z) (x : mem R) (c : mem poly)
    (y : Z * Z * Z) (b : Z) :
  (1 <= k)%Z -> (0 <= snd y)%Z ->
  b <> (let '(i, r, j) := y in irj_offset k i r j) ->
  recon_polys_at k x c y b = c b.
Proof.
  destruct y as [[i r] j]. cbn [snd]. intros Hk Hj Hb.
  unfold recon_polys_at.
  now apply (recon_polys_j_spec k (xlocal_fill k x (k - 1) i) (k - 1) i r j c).
Qed.

(** The polynomial stored for an interior cell, a shift and a neighbour. *)
Lemma recon_polys_value (w : weno) (i r j : Z) (t : R) :
  (w_k w - 1 <= i < w_nc w - (w_k w - 1))%Z ->
  (0 <= r < w_k w)%Z -> (0 <= j < w_k w)%Z ->
  let p := w_c_irj_x (weno_recon_polys w) (irj_offset (w_k w) i r j) in
  wf p /\ poly_n p = Z.to_nat (w_k w - 1) /\
  poly_value p t = recon_sum (w_x w) (w_k w) i r j t.
Proof.
  intros Hi Hr Hj. cbv zeta. rewrite weno_recon_polys_flat.
  set (k := w_k w) in *. set (x := w_x w).
  pose (P := fun (y : Z * Z * Z) (p : poly) =>
               let '(i, r, j) := y in
               (0 <= r < k)%Z -> (0 <= j < k)%Z ->
               wf p /\ poly_n p = Z.to_nat (k - 1) /\
               poly_value p t = recon_sum x k i r j t).
  pose (addr := fun y : Z * Z * Z => let '(i, r, j) := y in irj_offset k i r j).
  assert (Hall : forall y, In y (polys_space k (w_nc w)) ->
            forall m, (forall y', In y' (polys_space k (w_nc w)) ->
                                  addr y' = addr y -> y' = y) ->
            P y (fold_left (recon_polys_at k x) (polys_space k (w_nc w)) m
                           (addr y))).
  { intros y Hy m Hinj. revert m.
    assert (Hgen : forall (l : list (Z * Z * Z)) (m : mem poly),
               (forall y', In y' l -> In y' (polys_space k (w_nc w))) ->
               In y l ->
               P y (fold_left (recon_polys_at k x) l m (addr y))).
    { induction l as [|yl l IH] using rev_ind; intros m Hsub Hin;
        [destruct Hin|].
      rewrite fold_left_app. cbn [fold_left].
      assert (Hyl : In yl (polys_space k (w_nc w)))
        by (apply Hsub, in_or_app; right; now left).
      destruct yl as [[il rl] jl]. apply polys_space_In in Hyl.
      destruct (Z.eq_dec (addr (il, rl, jl)) (addr y)) as [Heq|Hne].
      - assert ((il, rl, jl) = y) as <-.
        { apply Hinj; [apply polys_space_In; lia | exact Heq]. }
        unfold P, addr, recon_polys_at. intros _ _.
        destruct (recon_polys_j_spec k (xlocal_fill k x (k - 1) il) (k - 1)
                    il rl jl (fold_left (recon_polys_at k x) l m))
          as (_ & Hwf & Hn & Hv); [lia..|].
        split; [exact Hwf|]. split; [exact Hn|].
        rewrite Hv. unfold recon_sum. apply sumR_ext. intros l' Hl'.
        apply zrange_In in Hl'. unfold recon_term, lagrange_denominator.
        f_equal; [|f_equal].
        + apply sumR_ext. intros m' Hm'. apply others_In in Hm'.
          apply prodR_ext. intros n' Hn'. apply others2_In in Hn'.
          now rewrite znth_xlocal_node by lia.
        + apply prodR_ext. intros m' Hm'. apply others_In in Hm'.
          now rewrite !znth_xlocal_node by lia.
      - rewrite recon_polys_at_frame; [| lia | cbn [snd]; lia | ].
        + apply IH.
          * intros y' Hy'. apply Hsub, in_or_app. now left.
          * apply in_app_or in Hin as [Hin|[Heq|[]]]; [assumption|].
            subst y. congruence.
        + fold (addr (il, rl, jl)). congruence. }
    intros m. apply Hgen; [auto|assumption]. }
  specialize (Hall (i, r, j)).
  apply Hall; try assumption.
  - apply polys_space_In. lia.
  - intros [[i' r'] j'] Hy' Heq. apply polys_space_In in Hy'.
    unfold addr in Heq. apply irj_offset_inj in Heq; [congruence|lia..].
Qed.
End ReconPolys.

(** ** The loops of [weno_recon_coefs] and [weno_smoothness_coefs] *)

Section OutputPasses.

Local Open Scope Z_scope.

(** The nested loops of [weno_recon_coefs] as one loop over tuples. *)
Lemma weno_recon_coefs_flat (w : weno) :
  w_c_ilrj (weno_recon_coefs w)
  = fold_left (recon_coefs_at w)
              (coefs_space (w_k w) (w_nc w) (w_nxi w)) (w_c_ilrj w).
Proof.
  unfold weno_recon_coefs, coefs_space, cells. cbn [w_c_ilrj set_c_ilrj].
  rewrite fold_left_flat_map. apply fold_left_ext_in. intros c i _.
  unfold recon_coefs_i. rewrite fold_left_flat_map.
  apply fold_left_ext_in. intros c' r _.
  unfold recon_coefs_r. rewrite fold_left_flat_map.
  apply fold_left_ext_in. intros c'' j _.
  unfold recon_coefs_j. now rewrite fold_left_map.
Qed.

(** The nested loops of [weno_smoothness_coefs] as one loop over tuples. *)
Lemma weno_smoothness_coefs_flat (w : weno) :
  w_beta (weno_smoothness_coefs w)
  = fold_left (smoothness_at w)
              (smoothness_space (w_k w) (w_nc w)) (w_beta w).
Proof.
  unfold weno_smoothness_coefs, smoothness_space, cells.
  cbn [w_beta set_beta].
  rewrite fold_left_flat_map. apply fold_left_ext_in. intros b i _.
  unfold smoothness_i. rewrite fold_left_flat_map.
  apply fold_left_ext_in. intros b' r _.
  unfold smoothness_r. rewrite fold_left_flat_map.
  apply fold_left_ext_in. intros b'' m _.
  unfold smoothness_m. now rewrite fold_left_map.
Qed.

Lemma coefs_space_In (k nc nxi i r j n : Z) :
  In (i, r, j, n) (coefs_space k nc nxi)
  <-> k - 1 <= i < nc - (k - 1) /\ 0 <= r < k /\ 0 <= j < k /\ 0 <= n < nxi.
Proof.
  unfold coefs_space, cells. rewrite in_flat_map. split.
  - intros (i' & Hi & H). apply in_flat_map in H as (r' & Hr & H).
    apply in_flat_map in H as (j' & Hj & H).
    apply in_map_iff in H as (n' & Heq & Hn). inversion Heq; subst.
    apply zrange_In in Hi, Hr, Hj, Hn. lia.
  - intros (Hi & Hr & Hj & Hn). exists i. split; [apply zrange_In; lia|].
    apply in_flat_map. exists r. split; [apply zrange_In; lia|].
    apply in_flat_map. exists j. split; [apply zrange_In; lia|].
    apply in_map. apply zrange_In. lia.
Qed.

Lemma smoothness_space_In (k nc i r m n : Z) :
  In (i, r, m, n) (smoothness_space k nc)
  <-> k - 1 <= i < nc - (k - 1) /\ 0 <= r < k /\ 0 <= m < k /\ m <= n < k.
Proof.
  unfold smoothness_space, cells. rewrite in_flat_map. split.
  - intros (i' & Hi & H). apply in_flat_map in H as (r' & Hr & H).
    apply in_flat_map in H as (m' & Hm & H).
    apply in_map_iff in H as (n' & Heq & Hn). inversion Heq; subst.
    apply zrange_In in Hi, Hr, Hm, Hn. lia.
  - intros (Hi & Hr & Hm & Hn). exists i. split; [apply zrange_In; lia|].
    apply in_flat_map. exists r. split; [apply zrange_In; lia|].
    apply in_flat_map. exists m. split; [apply zrange_In; lia|].
    apply in_map. apply zrange_In. lia.
Qed.

Lemma recon_coefs_at_frame (w : weno) (c : mem R) (y : Z * Z * Z * Z) (b : Z) :
  b <> coefs_addr w y -> recon_coefs_at w c y b = c b.
Proof.
  destruct y as [[[i r] j] n]. intros Hb.
  unfold recon_coefs_at, recon_coefs_n. now apply store_other.
Qed.

Lemma smoothness_at_frame (w : weno) (b : mem R) (y : Z * Z * Z * Z) (a : Z) :
  a <> smoothness_addr w y -> smoothness_at w b y a = b a.
Proof.
  destruct y as [[[i r] m] n]. intros Ha.
  unfold smoothness_at, smoothness_n.
  destruct (fold_left _ _ _) as [[pm pn] l2]. now apply store_other.
Qed.

(** [weno_recon_coefs] writes only at the offsets of the tuples it visits. *)
Lemma recon_coefs_unwritten (w : weno) (a : Z) :
  (forall y, In y (coefs_space (w_k w) (w_nc w) (w_nxi w)) ->
             a <> coefs_addr w y) ->
  w_c_ilrj (weno_recon_coefs w) a = w_c_ilrj w a.
Proof.
  intros H. rewrite weno_recon_coefs_flat.
  apply (fold_left_unwritten (recon_coefs_at w) (coefs_addr w));
    [apply recon_coefs_at_frame | exact H].
Qed.

(** [weno_smoothness_coefs] writes only at the offsets of the tuples it
    visits. *)
Lemma smoothness_unwritten (w : weno) (a : Z) :
  (forall y, In y (smoothness_space (w_k w) (w_nc w)) ->
             a <> smoothness_addr w y) ->
  w_beta (weno_smoothness_coefs w) a = w_beta w a.
Proof.
  intros H. rewrite weno_smoothness_coefs_flat.
  apply (fold_left_unwritten (smoothness_at w) (smoothness_addr w));
    [apply smoothness_at_frame | exact H].
Qed.

End OutputPasses.

(** ** Differentiation, integration and products of polynomials *)

Section Calculus.

Local Open Scope R_scope.

Lemma derivable_pt_lim_ext (f g : R -> R) (x l : R) :
  (forall y, f y = g y) -> derivable_pt_lim f x l -> derivable_pt_lim g x l.
Proof.
  intros E H eps Heps. destruct (H eps Heps) as [delta Hd].
  exists delta. intros h Hh Hlt. rewrite <- !E. now apply Hd.
Qed.

Lemma derivable_pt_lim_sumR {A : Type} (l : list A) (f f' : A -> R -> R)
    (x : R) :
  (forall a, In a l -> derivable_pt_lim (f a) x (f' a x)) ->
  derivable_pt_lim (fun y => sumR (fun a => f a y) l) x
                   (sumR (fun a => f' a x) l).
Proof.
  induction l as [|a l IH]; intros H.
  - apply (derivable_pt_lim_ext (fct_cte 0)); [reflexivity|].
    apply derivable_pt_lim_const.
  - rewrite sumR_cons.
    apply (derivable_pt_lim_ext
             (f a + (fun y => sumR (fun a' => f a' y) l))%F);
      [reflexivity|].
    apply derivable_pt_lim_plus.
    + apply H. now left.
    + apply IH. intros a' Ha'. apply H. now right.
Qed.

Lemma derivable_pt_lim_monomial (c x : R) (z : nat) :
  derivable_pt_lim (fun y => c * y ^ z) x (c * (INR z * x ^ pred z)).
Proof.
  apply (derivable_pt_lim_ext (mult_real_fct c (fun y => y ^ z)));
    [reflexivity|].
  apply derivable_pt_lim_scal, derivable_pt_lim_pow.
Qed.

Lemma nth_map_seq (h : nat -> R) (len z : nat) :
  (z < len)%nat -> nth z (map h (seq 0 len)) 0 = h z.
Proof.
  intros Hz.
  rewrite (nth_indep _ 0 (h 0%nat)) by (rewrite length_map, length_seq; lia).
  rewrite map_nth, seq_nth by lia. reflexivity.
Qed.

Lemma wf_diff1 (p : poly) : wf (poly_diff1 p).
Proof.
  unfold wf, poly_diff1. destruct (poly_n p) as [|n']; cbn [poly_p poly_n].
  - reflexivity.
  - unfold up_to. now rewrite length_map, length_seq.
Qed.

Lemma coef_diff1 (p : poly) (n' z : nat) :
  poly_n p = S n' -> (z <= n')%nat ->
  coef (poly_diff1 p) z = INR (S z) * coef p (S z).
Proof.
  intros Hn Hz. unfold poly_diff1. rewrite Hn. unfold coef at 1.
  cbn [poly_p]. unfold up_to.
  now rewrite (nth_map_seq (fun z => INR (S z) * coef p (S z))) by lia.
Qed.

(** [poly_diff1] is differentiation. *)
Lemma poly_value_derivable (p : poly) (x : R) :
  derivable_pt_lim (poly_value p) x (poly_value (poly_diff1 p) x).
Proof.
  assert (E : poly_value (poly_diff1 p) x
              = sumR (fun z => coef p z * (INR z * x ^ pred z))
                     (up_to (poly_n p))).
  { unfold poly_value at 1. destruct (poly_n p) as [|n'] eqn:Hn.
    - unfold poly_diff1. rewrite Hn. cbn. lra.
    - assert (Hn1 : poly_n (poly_diff1 p) = n')
        by (unfold poly_diff1; now rewrite Hn).
      rewrite Hn1. unfold up_to.
      rewrite (sumR_seq_first _ 0 (S n')).
      change (INR 0) with 0. rewrite Rmult_0_l, Rmult_0_r, Rplus_0_l.
      apply sumR_ext. intros z Hz. apply in_seq in Hz.
      rewrite (coef_diff1 p n') by (assumption || lia).
      cbn [pred]. ring. }
  rewrite E.
  apply (derivable_pt_lim_sumR (up_to (poly_n p))
           (fun z y => coef p z * y ^ z)
           (fun z y => coef p z * (INR z * y ^ pred z))).
  intros z _. apply derivable_pt_lim_monomial.
Qed.

(** [poly_diff p d] is the [d]-th derivative. *)
Lemma poly_diff_nth_derivative (d : nat) (p : poly) :
  nth_derivative d (poly_value p) (poly_value (Nat.iter d poly_diff1 p)).
Proof.
  revert p. induction d as [|d IH]; intros p.
  - constructor. reflexivity.
  - rewrite Nat.iter_succ_r.
    apply (nth_derivative_S d _ (poly_value (poly_diff1 p))).
    + intros x. apply poly_value_derivable.
    + apply IH.
Qed.

Lemma wf_poly_diff (p : poly) (d : Z) : (1 <= d)%Z -> wf (poly_diff p d).
Proof.
  intros Hd. unfold poly_diff.
  replace (Z.to_nat d) with (S (Z.to_nat (d - 1))) by lia.
  cbn [Nat.iter nat_rect]. apply wf_diff1.
Qed.

(** [poly_int] is the increase of the antiderivative. *)
Lemma poly_int_antiderivative (p : poly) (a b : R) :
  poly_int p a b = poly_antiderivative p b - poly_antiderivative p a.
Proof.
  unfold poly_int, poly_antiderivative.
  rewrite (sumR_ext _ (fun z => coef p z / INR (S z) * b ^ S z
                               + -1 * (coef p z / INR (S z) * a ^ S z))).
  - rewrite sumR_plus, sumR_scal. lra.
  - intros z _. lra.
Qed.

Lemma poly_antiderivative_derivable (p : poly) (x : R) :
  derivable_pt_lim (poly_antiderivative p) x (poly_value p x).
Proof.
  unfold poly_value.
  rewrite (sumR_ext _ (fun z => coef p z / INR (S z)
                               * (INR (S z) * x ^ pred (S z)))).
  - apply (derivable_pt_lim_sumR (up_to (poly_n p))
             (fun z y => coef p z / INR (S z) * y ^ S z)
             (fun z y => coef p z / INR (S z) * (INR (S z) * y ^ pred (S z)))).
    intros z _. apply derivable_pt_lim_monomial.
  - intros z _. cbn [pred]. field. apply not_0_INR. lia.
Qed.

(** [poly_int p a b] is the definite integral of [p] over [[a, b]]. *)
Lemma poly_int_definite_integral (p : poly) (a b : R) :
  definite_integral (poly_value p) a b (poly_int p a b).
Proof.
  exists (poly_antiderivative p). split.
  - intros x. apply poly_antiderivative_derivable.
  - apply poly_int_antiderivative.
Qed.

(** The Cauchy product of two coefficient sequences. *)
Lemma cauchy_product (n1 n2 : nat) (t : R) :
  forall a b : nat -> R,
    (forall i, (n1 < i)%nat -> a i = 0) ->
    (forall j, (n2 < j)%nat -> b j = 0) ->
    sumR (fun z => sumR (fun i => a i * b (z - i)%nat) (up_to z) * t ^ z)
         (up_to (n1 + n2))
    = sumR (fun i => a i * t ^ i) (up_to n1)
      * sumR (fun j => b j * t ^ j) (up_to n2).
Proof.
  unfold up_to. induction n1 as [|n1 IH]; intros a b Ha Hb.
  - cbn [Nat.add]. rewrite (sumR_seq_first _ 0 0).
    change (seq 0 0) with (@nil nat).
    rewrite sumR_nil, <- sumR_scal.
    apply sumR_ext. intros z _. cbv beta.
    rewrite sumR_seq_first, sumR_zero.
    + rewrite Nat.sub_0_r. cbn [pow]. ring.
    + intros i _. cbv beta. rewrite Ha by lia. ring.
  - (* split off a 0 from every inner sum *)
    rewrite (sumR_ext _
               (fun z => a 0%nat * (b z * t ^ z)
                         + sumR (fun i => a (S i) * b (z - S i)%nat) (seq 0 z)
                           * t ^ z)).
    2:{ intros z _. cbv beta. rewrite sumR_seq_first, Nat.sub_0_r. ring. }
    rewrite sumR_plus, sumR_scal.
    (* the first part is a 0 times the second polynomial *)
    replace (S (S n1 + n2)) with (S n2 + S n1)%nat by lia.
    rewrite (sumR_seq_extend (fun z => b z * t ^ z) (S n2) (S n1)).
    2:{ intros z Hz. cbv beta. rewrite Hb by lia. ring. }
    (* the second part is t times the product for the shifted sequence *)
    replace (S n2 + S n1)%nat with (S (S (n1 + n2))) by lia.
    rewrite (sumR_seq_first _ 0 (S (n1 + n2))).
    change (seq 0 0) with (@nil nat).
    rewrite sumR_nil, Rmult_0_l, Rplus_0_l. cbv beta.
    rewrite (sumR_ext
               (fun z => sumR (fun i => a (S i) * b (S z - S i)%nat)
                              (seq 0 (S z)) * t ^ S z)
               (fun z => t * (sumR (fun i => a (S i) * b (z - i)%nat)
                                   (seq 0 (S z)) * t ^ z))).
    2:{ intros z _. cbv beta. cbn [pow Nat.sub]. ring. }
    rewrite sumR_scal.
    rewrite (IH (fun i => a (S i)) b).
    2:{ intros i Hi. apply Ha. lia. }
    2:{ exact Hb. }
    rewrite (sumR_seq_first (fun i => a i * t ^ i) 0 (S n1)).
    rewrite (sumR_ext (fun z => a (S z) * t ^ S z)
                      (fun z => t * (a (S z) * t ^ z))).
    2:{ intros z _. cbv beta. cbn [pow]. ring. }
    rewrite sumR_scal. cbn [pow]. ring.
Qed.

Lemma coef_mult (p q : poly) (z : nat) :
  (z <= poly_n p + poly_n q)%nat ->
  coef (poly_mult p q) z
  = sumR (fun i => coef p i * coef q (z - i)%nat) (up_to z).
Proof.
  intros Hz. unfold coef at 1, poly_mult. cbn [poly_p].
  change (up_to (poly_n p + poly_n q))
    with (seq 0 (S (poly_n p + poly_n q))).
  now rewrite (nth_map_seq
                 (fun z => sumR (fun i => coef p i * coef q (z - i)%nat)
                                (up_to z))) by lia.
Qed.

(** [poly_mult] is multiplication. *)
Lemma value_mult (p q : poly) (t : R) :
  wf p -> wf q ->
  poly_value (poly_mult p q) t = poly_value p t * poly_value q t.
Proof.
  intros Hp Hq. unfold poly_value.
  rewrite <- (cauchy_product (poly_n p) (poly_n q) t (coef p) (coef q)).
  - change (poly_n (poly_mult p q)) with (poly_n p + poly_n q)%nat.
    apply sumR_ext. intros z Hz. apply in_seq in Hz. cbv beta.
    now rewrite coef_mult by lia.
  - intros i Hi. now apply coef_beyond.
  - intros j Hj. now apply coef_beyond.
Qed.


Lemma poly_value_continuity (p : poly) : continuity (poly_value p).
Proof.
  apply derivable_continuous. intros x.
  exists (poly_value (poly_diff1 p) x). apply poly_value_derivable.
Qed.

(** [poly_int p a b] is the Riemann integral of [p] over [[a, b]]. *)
Lemma poly_int_Riemann (p : poly) (a b : R)
    (pr : Riemann_integrable (poly_value p) a b) :
  RiemannInt pr = poly_int p a b.
Proof.
  pose (dF := fun x : R =>
                exist (fun l => derivable_pt_abs (poly_antiderivative p) x l)
                      (poly_value p x)
                      (poly_antiderivative_derivable p x)
              : derivable_pt (poly_antiderivative p) x).
  assert (Hc : continuity (derive (poly_antiderivative p) dF))
    by exact (poly_value_continuity p).
  rewrite poly_int_antiderivative.
  exact (@FTC_Riemann (mkC1 Hc) a b pr).
Qed.

(** The Riemann integral of a product of two polynomials over [[0, b]] is
    what [poly_int] returns for their [poly_mult]. *)
Lemma poly_int_product_Riemann (p q : poly) (b : R)
    (pr : Riemann_integrable (fun t => poly_value p t * poly_value q t) 0 b) :
  wf p -> wf q -> 0 <= b ->
  RiemannInt pr = poly_int (poly_mult p q) 0 b.
Proof.
  intros Hp Hq Hb.
  assert (pr2 : Riemann_integrable (poly_value (poly_mult p q)) 0 b).
  { apply continuity_implies_RiemannInt; [assumption|].
    intros x _. apply poly_value_continuity. }
  rewrite <- (poly_int_Riemann (poly_mult p q) 0 b pr2).
  apply RiemannInt_P18; [assumption|].
  intros x _. now rewrite value_mult.
Qed.

End Calculus.

(** ** The loop over the derivative orders *)

Section Smoothness.

Local Open Scope R_scope.

Lemma poly_diff_step (p : poly) (d : Z) :
  (1 <= d)%Z -> poly_diff (poly_diff p (d - 1)) 1 = poly_diff p d.
Proof.
  intros Hd. unfold poly_diff. change (Z.to_nat 1) with 1%nat.
  replace (Z.to_nat d) with (S (Z.to_nat (d - 1))) by lia. reflexivity.
Qed.

(** After the iterations [lo .. hi-1] the accumulator [l2] has grown by the
    terms of those derivative orders. *)
Lemma smoothness_d_loop (multi : Z) (dx : R) (pm pn : poly) (lo hi : Z) :
  (1 <= lo)%Z ->
  forall l2 : R,
    snd (fold_left (smoothness_d multi dx) (zrange lo hi)
                   (poly_diff pm (lo - 1), poly_diff pn (lo - 1), l2))
    = l2 + sumR (smoothness_term multi dx pm pn) (zrange lo hi).
Proof.
  revert lo hi.
  apply (zrange_ind
           (fun lo hi =>
              (1 <= lo)%Z ->
              forall l2 : R,
                snd (fold_left (smoothness_d multi dx) (zrange lo hi)
                       (poly_diff pm (lo - 1), poly_diff pn (lo - 1), l2))
                = l2 + sumR (smoothness_term multi dx pm pn) (zrange lo hi))).
  - intros lo hi Hle Hlo l2. rewrite zrange_nil by assumption.
    cbn [fold_left snd]. rewrite sumR_nil. lra.
  - intros lo hi Hlt IH Hlo l2. rewrite zrange_cons by assumption.
    cbn [fold_left]. unfold smoothness_d at 2.
    rewrite !poly_diff_step by assumption.
    replace (lo + 1 - 1)%Z with lo in IH by lia.
    rewrite IH by lia. rewrite sumR_cons. unfold smoothness_term at 2. lra.
Qed.

(** The value an iteration of [weno_smoothness_coefs] leaves in its cell. *)
Lemma smoothness_at_hit (w : weno) (b : mem R) (i r m n : Z) :
  smoothness_at w b (i, r, m, n) (beta_offset w i r m n)
  = smoothness_sum (w_k w) (if (m =? n)%Z then 1 else 2)
      (w_x w (i + 1)%Z - w_x w i)
      (w_c_irj_x w (irj_offset (w_k w) i r m))
      (w_c_irj_x w (irj_offset (w_k w) i r n)).
Proof.
  unfold smoothness_at, smoothness_n. cbv zeta.
  pose proof (smoothness_d_loop (if (m =? n)%Z then 1 else 2)
                (w_x w (i + 1)%Z - w_x w i)
                (w_c_irj_x w (irj_offset (w_k w) i r m))
                (w_c_irj_x w (irj_offset (w_k w) i r n))
                1 (w_k w) (Z.le_refl 1) 0) as H.
  change (poly_diff ?p (1 - 1)) with p in H.
  unfold irj_offset in H.
  destruct (fold_left _ _ _) as [[pm' pn'] l2]. cbn [snd] in H.
  fold (beta_offset w i r m n). rewrite store_same, H.
  unfold smoothness_sum, irj_offset. lra.
Qed.

(** The smoothness entry of an interior cell, a shift and a pair [m <= n]. *)
Lemma smoothness_value (w : weno) (i r m n : Z) :
  beta_layout_injective w ->
  (w_k w - 1 <= i < w_nc w - (w_k w - 1))%Z ->
  (0 <= r < w_k w)%Z -> (0 <= m)%Z -> (m <= n)%Z -> (n < w_k w)%Z ->
  w_beta (weno_smoothness_coefs w) (beta_offset w i r m n)
  = smoothness_sum (w_k w) (if (m =? n)%Z then 1 else 2)
      (w_x w (i + 1)%Z - w_x w i)
      (w_c_irj_x w (irj_offset (w_k w) i r m))
      (w_c_irj_x w (irj_offset (w_k w) i r n)).
Proof.
  intros Hinj Hi Hr Hm Hmn Hn. rewrite weno_smoothness_coefs_flat.
  apply (fold_left_written (smoothness_at w) (smoothness_addr w)
           (fun y v =>
              v = (let '(i, r, m, n) := y in
                   smoothness_sum (w_k w) (if (m =? n)%Z then 1 else 2)
                     (w_x w (i + 1)%Z - w_x w i)
                     (w_c_irj_x w (irj_offset (w_k w) i r m))
                     (w_c_irj_x w (irj_offset (w_k w) i r n))))
           (smoothness_at_frame w)
           (fun b y => match y with
                       | (i', r', m', n') => smoothness_at_hit w b i' r' m' n'
                       end)
           (smoothness_space (w_k w) (w_nc w)) (w_beta w) (i, r, m, n)).
  - apply smoothness_space_In. lia.
  - intros [[[i' r'] m'] n'] Hy Heq. apply smoothness_space_In in Hy.
    unfold smoothness_addr in Heq. apply Hinj in Heq; [assumption|lia..].
Qed.

Lemma definite_integral_ext (f g : R -> R) (a b v : R) :
  (forall x, f x = g x) -> definite_integral f a b v ->
  definite_integral g a b v.
Proof.
  intros E (F & HF & Hv). exists F. split; [|exact Hv].
  intros x. rewrite <- E. apply HF.
Qed.

End Smoothness.

(** ** Evaluating the model on concrete inputs *)

(** Unfolds the model down to arithmetic on real numbers. *)
Ltac run_model :=
  cbv -[Rplus Rminus Rmult Ropp Rinv Rdiv IZR INR pow powerRZ Rle Rlt Rge Rgt].

(** * The reconstruction polynomials *)

Section ReconPolysClaims.

Local Open Scope R_scope.

(** C1 (amended).  For every interior cell [i] of [[k-1, nc-(k-1))], every
    left shift [r] of [[0,k)] and every neighbour [j] of [[0,k)], the
    polynomial stored by [weno_recon_polys] at [(i,r,j)] is the sum over [l]
    from [j+1] to [k] of the following term: the sum, over the node indices
    [m] of [[0,k]] other than [l], of the product of [(x - node[n])] over the
    node indices [n] other than [l] and [m]; the whole scaled by the
    reciprocal of the product of [(node[l] - node[m])] over [m <> l].  Here
    [node[m] = xlocal[il-r+m]], [il = k-1], [xlocal[j] = x[i-il+j] - x[i]].
    The stored array has [k] coefficients, and [poly_eval] computes the same
    value. *)
Theorem recon_polys_closed_form (w : weno) (i r j : Z) (t : R) :
  (w_k w - 1 <= i < w_nc w - (w_k w - 1))%Z ->
  (0 <= r < w_k w)%Z -> (0 <= j < w_k w)%Z ->
  let p := w_c_irj_x (weno_recon_polys w) (irj_offset (w_k w) i r j) in
  poly_value p t = recon_sum (w_x w) (w_k w) i r j t /\
  poly_eval p t = recon_sum (w_x w) (w_k w) i r j t /\
  length (poly_p p) = Z.to_nat (w_k w).
Proof.
  intros Hi Hr Hj p.
  destruct (recon_polys_value w i r j t Hi Hr Hj) as (Hwf & Hn & Hv).
  fold p in Hwf, Hn, Hv. repeat split.
  - exact Hv.
  - now rewrite poly_eval_value.
  - rewrite Hwf, Hn. lia.
Qed.

Lemma recon_polys_closed_form_witness :
  let p := w_c_irj_x (weno_recon_polys ex_w) (irj_offset 2 1 0 0) in
  poly_value p 0 = recon_sum ex_x 2 1 0 0 0 /\
  poly_eval p 0 = recon_sum ex_x 2 1 0 0 0 /\
  length (poly_p p) = 2%nat.
Proof.
  apply (recon_polys_closed_form ex_w 1 0 0 0); cbn; lia.
Defined.

(** C1, as worded, fails: for [k = 2] on the grid 0,1,2,3,4 the polynomial
    stored at [(i,r,j) = (1,0,0)] is [3/2 - x], while the sum of the single
    products over the denominators is [3/2 x - 1/2 x^2]; they differ at 0. *)
Lemma lagrange_sum_counterexample :
  ~ (forall t,
       poly_value (w_c_irj_x (weno_recon_polys ex_w) (irj_offset 2 1 0 0)) t
       = lagrange_sum ex_x 2 1 0 0 t).
Proof.
  intros H. specialize (H 0). revert H. run_model. lra.
Qed.


(** C7.  [inplace_poly_mult_xpa] replaces [p(x)] by [(x + a) p(x)], dropping
    only the coefficient of [x^(n+1)], which does not fit the array.  In
    [weno_recon_polys] every invocation (the loop over [n] stopped before any
    [n] that is not skipped, for [l <> m] in [[0,k]]) finds a polynomial of
    working degree [k-1] whose degree is strictly less than [k-1], so the
    invocation computes [(x + a) p(x)] exactly; exactly [k-1] factors are
    applied to the constant 1, and the loop ends with their product. *)
Theorem mult_xpa_never_truncates
    (p : poly) (a t : R) (k : Z) (xlocal : list R) (il r l m n : Z)
    (before after : list Z) :
  wf p ->
  (1 <= k)%Z -> (0 <= l <= k)%Z -> (0 <= m <= k)%Z -> l <> m ->
  zrange 0 (k + 1) = before ++ n :: after -> n <> l -> n <> m ->
  poly_value (inplace_poly_mult_xpa p a) t
  = (t + a) * poly_value p t - coef p (poly_n p) * t ^ S (poly_n p)
  /\
  (let prd_n :=
     fold_left (prd_n_body xlocal il r l m) before (poly_one (k - 1)) in
   let a_n := - znth xlocal (xlocal_index il r n) in
   poly_n prd_n = Z.to_nat (k - 1) /\
   degree_lt prd_n (Z.to_nat (k - 1)) /\
   prd_n_body xlocal il r l m prd_n n = inplace_poly_mult_xpa prd_n a_n /\
   poly_value (inplace_poly_mult_xpa prd_n a_n) t
   = (t + a_n) * poly_value prd_n t)
  /\
  length (others2 k l m) = Z.to_nat (k - 1)
  /\
  poly_value (prd_n_loop k xlocal il r l m) t
  = prodR (fun n' => t - znth xlocal (xlocal_index il r n')) (others2 k l m).
Proof.
  intros Hwf Hk Hl Hm Hlm Hsplit Hnl Hnm.
  split; [now apply value_mult_xpa|].
  assert (Hlen : length (others2 k l m) = Z.to_nat (k - 1))
    by now apply others2_length.
  split; [|split; [exact Hlen | now apply prd_n_loop_spec]].
  cbv zeta. rewrite prd_n_body_continue.
  set (ns := filter (fun n' => negb ((n' =? l)%Z || (n' =? m)%Z)) before).
  (* fewer than k-1 factors have been applied before this invocation *)
  assert (Hns : (1 + length ns <= Z.to_nat (k - 1))%nat).
  { unfold others2 in Hlen. rewrite Hsplit, filter_app in Hlen.
    cbn [filter] in Hlen.
    apply Z.eqb_neq in Hnl, Hnm. rewrite Hnl, Hnm in Hlen.
    cbn [orb negb] in Hlen. rewrite length_app in Hlen. cbn [length] in Hlen.
    fold ns in Hlen. lia. }
  destruct (prd_fold (fun n' => - znth xlocal (xlocal_index il r n'))
              ns (poly_one (k - 1)) 1 (wf_one _) (degree_lt_one _))
    as (Hwfq & Hnq & Hdq & _).
  { cbn [poly_n poly_one]. lia. }
  cbv zeta in Hwfq, Hnq, Hdq. cbn [poly_n poly_one] in Hnq.
  assert (Hdeg : degree_lt
            (fold_left
               (fun q n' => inplace_poly_mult_xpa q
                              (- znth xlocal (xlocal_index il r n')))
               ns (poly_one (k - 1)))
            (Z.to_nat (k - 1)))
    by (eapply degree_lt_mono; [exact Hns | exact Hdq]).
  repeat split.
  - exact Hnq.
  - exact Hdeg.
  - unfold prd_n_body. apply Z.eqb_neq in Hnl, Hnm. now rewrite Hnl, Hnm.
  - apply mult_xpa_exact; [exact Hwfq|]. now rewrite Hnq.
Qed.

Lemma mult_xpa_never_truncates_witness :
  poly_value (inplace_poly_mult_xpa (poly_one 1) 1) 1
  = (1 + 1) * poly_value (poly_one 1) 1
    - coef (poly_one 1) (poly_n (poly_one 1)) * 1 ^ S (poly_n (poly_one 1))
  /\
  (let prd_n :=
     fold_left (prd_n_body (xlocal_fill 2 ex_x 1 1) 1 0 1 0) [0; 1]%Z
               (poly_one (2 - 1)) in
   let a_n := - znth (xlocal_fill 2 ex_x 1 1) (xlocal_index 1 0 2) in
   poly_n prd_n = Z.to_nat (2 - 1) /\
   degree_lt prd_n (Z.to_nat (2 - 1)) /\
   prd_n_body (xlocal_fill 2 ex_x 1 1) 1 0 1 0 prd_n 2
   = inplace_poly_mult_xpa prd_n a_n /\
   poly_value (inplace_poly_mult_xpa prd_n a_n) 1
   = (1 + a_n) * poly_value prd_n 1)
  /\
  length (others2 2 1 0) = Z.to_nat (2 - 1)
  /\
  poly_value (prd_n_loop 2 (xlocal_fill 2 ex_x 1 1) 1 0 1 0) 1
  = prodR (fun n' => 1 - znth (xlocal_fill 2 ex_x 1 1) (xlocal_index 1 0 n'))
          (others2 2 1 0).
Proof.
  apply (mult_xpa_never_truncates (poly_one 1) 1 1 2
           (xlocal_fill 2 ex_x 1 1) 1 0 1 0 2 [0; 1]%Z []).
  - reflexivity.
  - lia.
  - lia.
  - lia.
  - lia.
  - reflexivity.
  - lia.
  - lia.
Defined.

(** C10.  With [nx >= 2k] and [nc = nx - 1], every index that
    [weno_recon_polys] computes is within its array: for a processed cell [i]
    and [j] in [[0, 2k)] the grid indices [i - il + j] and [i] lie in
    [[0, nx)], and for [r] in [[0,k)] and a node index [n] in [[0,k]] the
    window index [il - r + n] lies in [[0, 2k)], the length of [xlocal]. *)
Theorem recon_polys_indices_in_bounds (w : weno) :
  (w_nx w >= 2 * w_k w)%Z -> w_nc w = (w_nx w - 1)%Z ->
  let il := (w_k w - 1)%Z in
  (forall i j,
      In i (zrange (w_k w - 1) (w_nc w - (w_k w - 1))) ->
      In j (zrange 0 (2 * w_k w)) ->
      (0 <= x_index il i j < w_nx w)%Z /\ (0 <= i < w_nx w)%Z) /\
  (forall r n,
      In r (zrange 0 (w_k w)) -> In n (zrange 0 (w_k w + 1)) ->
      (0 <= xlocal_index il r n < 2 * w_k w)%Z) /\
  (forall i, length (xlocal_fill (w_k w) (w_x w) il i)
             = Z.to_nat (2 * w_k w)).
Proof.
  intros Hnx Hnc il. subst il. split; [|split].
  - intros i j Hi Hj. apply zrange_In in Hi, Hj. unfold x_index. lia.
  - intros r n Hr Hn. apply zrange_In in Hr, Hn. unfold xlocal_index. lia.
  - intros i. unfold xlocal_fill. rewrite length_map, zrange_length.
    f_equal. lia.
Qed.

Lemma recon_polys_indices_in_bounds_witness :
  let il := (w_k ex_w - 1)%Z in
  (forall i j,
      In i (zrange (w_k ex_w - 1) (w_nc ex_w - (w_k ex_w - 1))) ->
      In j (zrange 0 (2 * w_k ex_w)) ->
      (0 <= x_index il i j < w_nx ex_w)%Z /\ (0 <= i < w_nx ex_w)%Z) /\
  (forall r n,
      In r (zrange 0 (w_k ex_w)) -> In n (zrange 0 (w_k ex_w + 1)) ->
      (0 <= xlocal_index il r n < 2 * w_k ex_w)%Z) /\
  (forall i, length (xlocal_fill (w_k ex_w) (w_x ex_w) il i)
             = Z.to_nat (2 * w_k ex_w)).
Proof.
  apply (recon_polys_indices_in_bounds ex_w).
  - cbn. lia.
  - reflexivity.
Defined.
End ReconPolysClaims.

(** * The output tensors *)

Section OutputClaims.

Local Open Scope Z_scope.

(** C4.  Running the three passes leaves every entry of the
    reconstruction-coefficient tensor and of the smoothness tensor whose cell
    index [i] lies outside [[k-1, nc-(k-1))], and every smoothness entry with
    [n < m], at its value from before the call.  Entries are the cells the
    strides assign to the index tuples within the extents, distinct tuples
    having distinct cells.  More generally a cell of either buffer that is
    not the offset of a visited tuple is never written. *)
Theorem boundary_and_lower_triangle_untouched (w : weno) :
  c_layout_injective w -> beta_layout_injective w ->
  let w' := weno_smoothness_coefs (weno_recon_coefs (weno_recon_polys w)) in
  (forall i l r j,
      0 <= i < w_nc w -> 0 <= l < w_nxi w -> 0 <= r < w_k w ->
      0 <= j < w_k w ->
      ~ (w_k w - 1 <= i < w_nc w - (w_k w - 1)) ->
      w_c_ilrj w' (c_offset w i l r j) = w_c_ilrj w (c_offset w i l r j)) /\
  (forall i r m n,
      0 <= i < w_nc w -> 0 <= r < w_k w -> 0 <= m < w_k w ->
      0 <= n < w_k w ->
      ~ (w_k w - 1 <= i < w_nc w - (w_k w - 1)) \/ n < m ->
      w_beta w' (beta_offset w i r m n) = w_beta w (beta_offset w i r m n)) /\
  (forall a,
      (forall y, In y (coefs_space (w_k w) (w_nc w) (w_nxi w)) ->
                 a <> coefs_addr w y) ->
      w_c_ilrj w' a = w_c_ilrj w a) /\
  (forall a,
      (forall y, In y (smoothness_space (w_k w) (w_nc w)) ->
                 a <> smoothness_addr w y) ->
      w_beta w' a = w_beta w a).
Proof.
  intros Hc Hb w'.
  assert (Hcw : forall a,
            (forall y, In y (coefs_space (w_k w) (w_nc w) (w_nxi w)) ->
                       a <> coefs_addr w y) ->
            w_c_ilrj w' a = w_c_ilrj w a).
  { intros a Ha.
    apply (recon_coefs_unwritten (weno_recon_polys w) a). exact Ha. }
  assert (Hbw : forall a,
            (forall y, In y (smoothness_space (w_k w) (w_nc w)) ->
                       a <> smoothness_addr w y) ->
            w_beta w' a = w_beta w a).
  { intros a Ha.
    apply (smoothness_unwritten (weno_recon_coefs (weno_recon_polys w)) a).
    exact Ha. }
  split; [|split; [|split]]; [| |exact Hcw|exact Hbw].
  - intros i l r j Hi Hl Hr Hj Hout. apply Hcw.
    intros [[[i' r'] j'] n'] Hy Heq. apply coefs_space_In in Hy.
    unfold coefs_addr in Heq.
    apply Hc in Heq; [|lia..]. inversion Heq; subst. lia.
  - intros i r m n Hi Hr Hm Hn Hout. apply Hbw.
    intros [[[i' r'] m'] n'] Hy Heq. apply smoothness_space_In in Hy.
    unfold smoothness_addr in Heq.
    apply Hb in Heq; [|lia..]. inversion Heq; subst. lia.
Qed.

Lemma boundary_and_lower_triangle_untouched_witness :
  let w' := weno_smoothness_coefs
              (weno_recon_coefs (weno_recon_polys ex_w)) in
  (forall i l r j,
      0 <= i < w_nc ex_w -> 0 <= l < w_nxi ex_w -> 0 <= r < w_k ex_w ->
      0 <= j < w_k ex_w ->
      ~ (w_k ex_w - 1 <= i < w_nc ex_w - (w_k ex_w - 1)) ->
      w_c_ilrj w' (c_offset ex_w i l r j)
      = w_c_ilrj ex_w (c_offset ex_w i l r j)) /\
  (forall i r m n,
      0 <= i < w_nc ex_w -> 0 <= r < w_k ex_w -> 0 <= m < w_k ex_w ->
      0 <= n < w_k ex_w ->
      ~ (w_k ex_w - 1 <= i < w_nc ex_w - (w_k ex_w - 1)) \/ n < m ->
      w_beta w' (beta_offset ex_w i r m n)
      = w_beta ex_w (beta_offset ex_w i r m n)) /\
  (forall a,
      (forall y, In y (coefs_space (w_k ex_w) (w_nc ex_w) (w_nxi ex_w)) ->
                 a <> coefs_addr ex_w y) ->
      w_c_ilrj w' a = w_c_ilrj ex_w a) /\
  (forall a,
      (forall y, In y (smoothness_space (w_k ex_w) (w_nc ex_w)) ->
                 a <> smoothness_addr ex_w y) ->
      w_beta w' a = w_beta ex_w a).
Proof.
  apply (boundary_and_lower_triangle_untouched ex_w).
  - unfold c_layout_injective, c_offset, ex_w.
    cbn [w_csi w_csl w_csr w_csj w_nc w_nxi w_k]. intros.
    assert (i = i') by lia. assert (l = l') by lia.
    assert (r = r') by lia. assert (j = j') by lia. congruence.
  - unfold beta_layout_injective, beta_offset, ex_w.
    cbn [w_bsi w_bsr w_bsm w_bsn w_nc w_k]. intros.
    assert (i = i') by lia. assert (r = r') by lia.
    assert (m = m') by lia. assert (n = n') by lia. congruence.
Defined.


(** C3 (amended).  With [k = 2], the grid 0,1,2,3,4 and the single evaluation
    point [xi = 0] (the physical offset [dx/2 = 1/2]), the reconstruction
    coefficients [c[1,0,r,j]] are [1, 0] for the shift [r = 0] and [0, 1] for
    the shift [r = 1]: at the midpoint of the cell the linear reconstruction
    returns the average of cell 1 itself.  The same values are found in the
    buffer of [c] after the call of [py_nonuniform_coeffs], at the offsets
    4, 5, 6 and 7 of the entries [(1,0,0,0)], [(1,0,0,1)], [(1,0,1,0)] and
    [(1,0,1,1)]. *)
Theorem k2_midpoint_coefficients :
  let c := w_c_ilrj (weno_recon_coefs (weno_recon_polys ex_w)) in
  let c_py := out_c (py_nonuniform_coeffs ex_args) in
  (c (c_offset ex_w 1 0 0 0) = 1%R /\ c (c_offset ex_w 1 0 0 1) = 0%R /\
   c (c_offset ex_w 1 0 1 0) = 0%R /\ c (c_offset ex_w 1 0 1 1) = 1%R) /\
  (c_py 4 = 1%R /\ c_py 5 = 0%R /\ c_py 6 = 0%R /\ c_py 7 = 1%R).
Proof.
  cbv zeta. repeat split; run_model; lra.
Qed.

(** C3, as worded, fails: none of the four coefficients is [3/2], so they are
    not [3/2, -1/2] and [1/2, 3/2] under either assignment of the shifts. *)
Lemma k2_midpoint_counterexample :
  let c := w_c_ilrj (weno_recon_coefs (weno_recon_polys ex_w)) in
  ~ standard_k2_values
      (c (c_offset ex_w 1 0 0 0)) (c (c_offset ex_w 1 0 0 1))
      (c (c_offset ex_w 1 0 1 0)) (c (c_offset ex_w 1 0 1 1)).
Proof.
  cbv zeta. unfold standard_k2_values.
  intros [(H & _) | (H & _)]; revert H; run_model; lra.
Qed.

(** The local window only sees differences of grid coordinates. *)
Lemma xlocal_fill_translate (k : Z) (x : mem R) (il i : Z) (t : R) :
  xlocal_fill k (fun z => (x z + t)%R) il i = xlocal_fill k x il i.
Proof. unfold xlocal_fill. apply map_ext. intros j. ring. Qed.

Lemma recon_polys_translate (w : weno) (t : R) :
  w_c_irj_x (weno_recon_polys (translate w t))
  = w_c_irj_x (weno_recon_polys w).
Proof.
  unfold weno_recon_polys, translate.
  cbn [w_c_irj_x set_c_irj_x w_k w_nc w_x].
  apply fold_left_ext_in. intros c i _. unfold recon_polys_i.
  now rewrite xlocal_fill_translate.
Qed.

(** [weno_recon_coefs] reads the grid only through the cell widths. *)
Lemma recon_coefs_same_widths (w1 w2 : weno) :
  w_k w1 = w_k w2 -> w_nc w1 = w_nc w2 -> w_nxi w1 = w_nxi w2 ->
  w_xi w1 = w_xi w2 -> w_c_irj_x w1 = w_c_irj_x w2 ->
  w_c_ilrj w1 = w_c_ilrj w2 ->
  w_csi w1 = w_csi w2 -> w_csl w1 = w_csl w2 ->
  w_csr w1 = w_csr w2 -> w_csj w1 = w_csj w2 ->
  (forall i : Z, (w_x w1 (i + 1)%Z - w_x w1 i
                  = w_x w2 (i + 1)%Z - w_x w2 i)%R) ->
  w_c_ilrj (weno_recon_coefs w1) = w_c_ilrj (weno_recon_coefs w2).
Proof.
  intros Hk Hnc Hnxi Hxi Hp Hc H1 H2 H3 H4 Hdx.
  unfold weno_recon_coefs. cbn [w_c_ilrj set_c_ilrj].
  rewrite Hk, Hnc, Hc. apply fold_left_ext_in. intros c i _.
  unfold recon_coefs_i. rewrite Hk. apply fold_left_ext_in. intros c' r _.
  unfold recon_coefs_r. rewrite Hk. apply fold_left_ext_in. intros c'' j _.
  unfold recon_coefs_j. rewrite Hnxi. apply fold_left_ext_in. intros c3 n _.
  unfold recon_coefs_n. now rewrite Hk, Hxi, Hp, H1, H2, H3, H4, Hdx.
Qed.

(** C5.  For every translation [t], every [k], every grid [x] and every
    sequence of evaluation points, the reconstruction-coefficient buffer
    produced on the grid [x[j] + t] is the one produced on [x]: the passes
    read the grid only through differences of coordinates. *)
Theorem translation_invariance (w : weno) (t : R) :
  w_c_ilrj (weno_recon_coefs (weno_recon_polys (translate w t)))
  = w_c_ilrj (weno_recon_coefs (weno_recon_polys w)).
Proof.
  apply recon_coefs_same_widths; try reflexivity.
  - apply recon_polys_translate.
  - intros i. unfold weno_recon_polys, translate. cbn [w_x set_c_irj_x].
    ring.
Qed.
End OutputClaims.

(** * The entry point *)

Section EntryPoint.

Local Open Scope Z_scope.

(** A pass whose cell loop is empty returns the struct it was given. *)
Lemma weno_recon_polys_empty (w : weno) :
  w_nc w - (w_k w - 1) <= w_k w - 1 -> weno_recon_polys w = w.
Proof.
  intros H. unfold weno_recon_polys. rewrite zrange_nil by assumption.
  now destruct w.
Qed.

Lemma weno_recon_coefs_empty (w : weno) :
  w_nc w - (w_k w - 1) <= w_k w - 1 -> weno_recon_coefs w = w.
Proof.
  intros H. unfold weno_recon_coefs. rewrite zrange_nil by assumption.
  now destruct w.
Qed.

Lemma weno_smoothness_coefs_empty (w : weno) :
  w_nc w - (w_k w - 1) <= w_k w - 1 -> weno_smoothness_coefs w = w.
Proof.
  intros H. unfold weno_smoothness_coefs. rewrite zrange_nil by assumption.
  now destruct w.
Qed.

(** The four checks of [py_nonuniform_coeffs] pass exactly on requests of the
    right dimensionality and element type. *)
Lemma checks_pass (args : py_args) :
  ~ wrong_dimensionality args -> ~ wrong_element_type args ->
  arr_nd (arg_x args) = 1 /\ arr_type_num (arg_x args) = PyArray_DOUBLE /\
  arr_nd (arg_xi args) = 1 /\ arr_type_num (arg_xi args) = PyArray_DOUBLE /\
  arr_nd (arg_c args) = 4 /\ arr_type_num (arg_c args) = PyArray_DOUBLE /\
  arr_nd (arg_beta args) = 4 /\ arr_type_num (arg_beta args) = PyArray_DOUBLE.
Proof.
  unfold wrong_dimensionality, wrong_element_type. intros Hd Ht.
  repeat split;
    match goal with |- ?a = ?b => destruct (Z.eq_dec a b); [assumption|tauto] end.
Qed.

(** What [py_nonuniform_coeffs] does once the four checks have passed. *)
Lemma py_nonuniform_coeffs_accepted (args : py_args) :
  ~ wrong_dimensionality args -> ~ wrong_element_type args ->
  exists w : weno,
    w_k w = arg_k args /\
    w_nx w = PyArray_DIM (arg_x args) 0 /\
    w_nc w = PyArray_DIM (arg_x args) 0 - 1 /\
    w_c_ilrj w = arr_data (arg_c args) /\
    w_beta w = arr_data (arg_beta args) /\
    py_nonuniform_coeffs args
    = (let w' := weno_smoothness_coefs
                   (weno_recon_coefs (weno_recon_polys w)) in
       mkoutcome Py_None (w_c_ilrj w') (w_beta w')).
Proof.
  intros Hd Ht.
  destruct (checks_pass args Hd Ht)
    as (H1 & H2 & H3 & H4 & H5 & H6 & H7 & H8).
  unfold py_nonuniform_coeffs.
  rewrite H1, H2, H3, H4, H5, H6, H7, H8. rewrite !Z.eqb_refl. cbn [negb orb].
  exists (mkweno (arg_k args) (PyArray_DIM (arg_x args) 0)
            (PyArray_DIM (arg_x args) 0 - 1) (PyArray_DIM (arg_xi args) 0)
            (arr_data (arg_x args)) (arr_data (arg_xi args)) calloc_poly
            (arr_data (arg_c args)) (arr_data (arg_beta args))
            (Z.quot (stride (arg_c args) 0) sizeof_double)
            (Z.quot (stride (arg_c args) 1) sizeof_double)
            (Z.quot (stride (arg_c args) 2) sizeof_double)
            (Z.quot (stride (arg_c args) 3) sizeof_double)
            (Z.quot (stride (arg_beta args) 0) sizeof_double)
            (Z.quot (stride (arg_beta args) 1) sizeof_double)
            (Z.quot (stride (arg_beta args) 2) sizeof_double)
            (Z.quot (stride (arg_beta args) 3) sizeof_double)).
  repeat split.
Qed.

(** C9.  When the grid has fewer than [2k] boundary points, a request of the
    right dimensionality and element type still succeeds and returns [None];
    the cell loop [i = k-1 .. nc-(k-1)-1] of the three passes is empty, and
    both output buffers are returned exactly as they were. *)
Theorem short_grid_writes_nothing (args : py_args) :
  ~ wrong_dimensionality args -> ~ wrong_element_type args ->
  PyArray_DIM (arg_x args) 0 < 2 * arg_k args ->
  py_nonuniform_coeffs args
  = mkoutcome Py_None (arr_data (arg_c args)) (arr_data (arg_beta args)) /\
  zrange (arg_k args - 1)
         ((PyArray_DIM (arg_x args) 0 - 1) - (arg_k args - 1)) = [].
Proof.
  intros Hd Ht Hnx.
  destruct (py_nonuniform_coeffs_accepted args Hd Ht)
    as (w & Hk & _ & Hnc & Hc & Hb & ->).
  assert (Hempty : w_nc w - (w_k w - 1) <= w_k w - 1) by lia.
  split.
  - cbv zeta.
    rewrite (weno_recon_polys_empty w Hempty),
            (weno_recon_coefs_empty w Hempty),
            (weno_smoothness_coefs_empty w Hempty).
    now rewrite Hc, Hb.
  - apply zrange_nil. lia.
Qed.

Lemma short_grid_writes_nothing_witness :
  py_nonuniform_coeffs ex_args_short
  = mkoutcome Py_None (arr_data (arg_c ex_args_short))
                      (arr_data (arg_beta ex_args_short)) /\
  zrange (arg_k ex_args_short - 1)
         ((PyArray_DIM (arg_x ex_args_short) 0 - 1)
          - (arg_k ex_args_short - 1)) = [].
Proof.
  apply (short_grid_writes_nothing ex_args_short).
  - unfold wrong_dimensionality. cbn. lia.
  - unfold wrong_element_type. cbn. lia.
  - cbn. lia.
Defined.

(** C8 (amended).  A request in which [x] or [xi] is not a one-dimensional
    array of doubles, or [c] or [beta] is not a four-dimensional array of
    doubles, is rejected with an error before the core runs, and neither
    output buffer is written.  The sizes are not looked at. *)
Theorem wrong_shape_or_type_rejected (args : py_args) :
  wrong_dimensionality args \/ wrong_element_type args ->
  rejected args (py_nonuniform_coeffs args).
Proof.
  intros H. unfold rejected, py_nonuniform_coeffs.
  destruct (Z.eqb_spec (arr_nd (arg_x args)) 1) as [E1|N1];
    [|cbn; eauto].
  destruct (Z.eqb_spec (arr_type_num (arg_x args)) PyArray_DOUBLE) as [E2|N2];
    [|cbn; eauto].
  destruct (Z.eqb_spec (arr_nd (arg_xi args)) 1) as [E3|N3];
    [|cbn; eauto].
  destruct (Z.eqb_spec (arr_type_num (arg_xi args)) PyArray_DOUBLE) as [E4|N4];
    [|cbn; eauto].
  destruct (Z.eqb_spec (arr_nd (arg_c args)) 4) as [E5|N5];
    [|cbn; eauto].
  destruct (Z.eqb_spec (arr_type_num (arg_c args)) PyArray_DOUBLE) as [E6|N6];
    [|cbn; eauto].
  destruct (Z.eqb_spec (arr_nd (arg_beta args)) 4) as [E7|N7];
    [|cbn; eauto].
  destruct (Z.eqb_spec (arr_type_num (arg_beta args)) PyArray_DOUBLE)
    as [E8|N8]; [|cbn; eauto].
  exfalso. unfold wrong_dimensionality, wrong_element_type in H. tauto.
Qed.

Lemma wrong_shape_or_type_rejected_witness :
  rejected ex_args_2d (py_nonuniform_coeffs ex_args_2d).
Proof.
  apply (wrong_shape_or_type_rejected ex_args_2d).
  left. unfold wrong_dimensionality. cbn. lia.
Defined.

(** C8, as worded, fails on sizes: a request whose [c] has extents
    (10, 1, 2, 2) on a grid of 4 cells is not rejected; the call returns
    [None] and has written [c]. *)
Lemma size_mismatch_counterexample :
  ~ sizes_consistent ex_args_mismatch /\
  out_ret (py_nonuniform_coeffs ex_args_mismatch) = Py_None /\
  out_c (py_nonuniform_coeffs ex_args_mismatch) 4 = 1%R /\
  arr_data (arg_c ex_args_mismatch) 4 = 0%R /\
  ~ rejected ex_args_mismatch (py_nonuniform_coeffs ex_args_mismatch).
Proof.
  assert (Hret : out_ret (py_nonuniform_coeffs ex_args_mismatch) = Py_None)
    by reflexivity.
  split; [|split; [|split; [|split]]].
  - unfold sizes_consistent. cbn. intros (_ & H & _). discriminate H.
  - exact Hret.
  - run_model. lra.
  - reflexivity.
  - intros ((msg & Hmsg) & _). rewrite Hret in Hmsg. discriminate Hmsg.
Qed.

End EntryPoint.

(** * The smoothness coefficients *)

Section SmoothnessClaims.

Local Open Scope R_scope.

(** C2.  For every interior cell [i] of [[k-1, nc-(k-1))], shift [r] of
    [[0,k)] and pair [0 <= m <= n < k], the smoothness entry stored at
    [(i,r,m,n)] is the sum over the derivative orders [d] from 1 to [k-1] of
    [multi * dx^(2d-1)] times the definite integral over [[0,dx]] of the
    product of the [d]-th derivatives of the reconstruction polynomials for
    [(i,r,m)] and [(i,r,n)], with [dx = x[i+1] - x[i]] and [multi = 1] if
    [m = n], else 2.  The integral is the value [poly_int] returns for the
    product [poly_mult] of the polynomials [poly_diff] returns; it is the
    increase of an antiderivative of the product of the two derivatives, and
    their Riemann integral when [0 <= dx]. *)
Theorem smoothness_closed_form (w : weno) (i r m n : Z) :
  beta_layout_injective w ->
  (w_k w - 1 <= i < w_nc w - (w_k w - 1))%Z ->
  (0 <= r < w_k w)%Z -> (0 <= m)%Z -> (m <= n)%Z -> (n < w_k w)%Z ->
  let w1 := weno_recon_polys w in
  let w3 := weno_smoothness_coefs (weno_recon_coefs w1) in
  let dx := w_x w (i + 1)%Z - w_x w i in
  let multi := if (m =? n)%Z then 1%Z else 2%Z in
  let pm := w_c_irj_x w1 (irj_offset (w_k w) i r m) in
  let pn := w_c_irj_x w1 (irj_offset (w_k w) i r n) in
  let integral :=
    fun d => poly_int (poly_mult (poly_diff pm d) (poly_diff pn d)) 0 dx in
  w_beta w3 (beta_offset w i r m n)
  = sumR (fun d => IZR multi * powerRZ dx (2 * d - 1) * integral d)
         (zrange 1 (w_k w))
  /\
  forall d, (1 <= d < w_k w)%Z ->
    nth_derivative (Z.to_nat d) (poly_value pm) (poly_value (poly_diff pm d)) /\
    nth_derivative (Z.to_nat d) (poly_value pn) (poly_value (poly_diff pn d)) /\
    definite_integral
      (fun t => poly_value (poly_diff pm d) t * poly_value (poly_diff pn d) t)
      0 dx (integral d) /\
    (0 <= dx ->
     forall pr : Riemann_integrable
                   (fun t => poly_value (poly_diff pm d) t
                             * poly_value (poly_diff pn d) t) 0 dx,
       RiemannInt pr = integral d).
Proof.
  intros Hinj Hi Hr Hm Hmn Hn w1 w3 dx multi pm pn integral. split.
  - exact (smoothness_value (weno_recon_coefs w1) i r m n Hinj Hi Hr Hm Hmn Hn).
  - intros d Hd. split; [|split; [|split]].
    + apply poly_diff_nth_derivative.
    + apply poly_diff_nth_derivative.
    + apply (definite_integral_ext
               (poly_value (poly_mult (poly_diff pm d) (poly_diff pn d)))).
      * intros t. apply value_mult; apply wf_poly_diff; lia.
      * apply poly_int_definite_integral.
    + intros Hdx pr.
      apply poly_int_product_Riemann;
        [apply wf_poly_diff; lia | apply wf_poly_diff; lia | assumption].
Qed.

Lemma smoothness_closed_form_witness :
  let w1 := weno_recon_polys ex_w in
  let w3 := weno_smoothness_coefs (weno_recon_coefs w1) in
  let dx := w_x ex_w (1 + 1)%Z - w_x ex_w 1%Z in
  let multi := if (0 =? 1)%Z then 1%Z else 2%Z in
  let pm := w_c_irj_x w1 (irj_offset (w_k ex_w) 1 0 0) in
  let pn := w_c_irj_x w1 (irj_offset (w_k ex_w) 1 0 1) in
  let integral :=
    fun d => poly_int (poly_mult (poly_diff pm d) (poly_diff pn d)) 0 dx in
  w_beta w3 (beta_offset ex_w 1 0 0 1)
  = sumR (fun d => IZR multi * powerRZ dx (2 * d - 1) * integral d)
         (zrange 1 (w_k ex_w))
  /\
  forall d, (1 <= d < w_k ex_w)%Z ->
    nth_derivative (Z.to_nat d) (poly_value pm) (poly_value (poly_diff pm d)) /\
    nth_derivative (Z.to_nat d) (poly_value pn) (poly_value (poly_diff pn d)) /\
    definite_integral
      (fun t => poly_value (poly_diff pm d) t * poly_value (poly_diff pn d) t)
      0 dx (integral d) /\
    (0 <= dx ->
     forall pr : Riemann_integrable
                   (fun t => poly_value (poly_diff pm d) t
                             * poly_value (poly_diff pn d) t) 0 dx,
       RiemannInt pr = integral d).
Proof.
  apply (smoothness_closed_form ex_w 1 0 0 1).
  - unfold beta_layout_injective, beta_offset, ex_w.
    cbn [w_bsi w_bsr w_bsm w_bsn w_nc w_k]. intros.
    assert (i = i') by lia. assert (r = r') by lia.
    assert (m = m') by lia. assert (n = n') by lia. congruence.
  - cbn. lia.
  - cbn. lia.
  - lia.
  - lia.
  - cbn. lia.
Defined.



End SmoothnessClaims.

Section SmoothnessOnDoubles.


End SmoothnessOnDoubles.

(** * Further properties of the passes *)

Section LastWrite.

Context {A B : Type}.
Variable f : mem A -> B -> mem A.
Variable addr : B -> Z.
Variable V : B -> A.
Hypothesis f_frame : forall m y b, b <> addr y -> f m y b = m b.
Hypothesis f_hit : forall m y, f m y (addr y) = V y.

(** A cell that some iteration assigns holds, when the loop ends, a value
    that does not depend on what the buffer held before the loop. *)
Lemma fold_left_overwritten (l : list B) (m1 m2 : mem A) (a : Z) :
  (exists y, In y l /\ addr y = a) ->
  fold_left f l m1 a = fold_left f l m2 a.
Proof.
  induction l as [|yl l IH] using rev_ind; intros (y & Hy & Ha);
    [destruct Hy|].
  rewrite !fold_left_app. cbn [fold_left].
  destruct (Z.eq_dec a (addr yl)) as [->|Hne].
  - now rewrite !f_hit.
  - rewrite !f_frame by assumption. apply IH.
    apply in_app_or in Hy as [Hy|[->|[]]]; [eauto|congruence].
Qed.

(** Running the loop a second time on its own result changes nothing. *)
Lemma fold_left_twice (l : list B) (m : mem A) (a : Z) :
  fold_left f l (fold_left f l m) a = fold_left f l m a.
Proof.
  destruct (in_dec Z.eq_dec a (map addr l)) as [Hin|Hout].
  - apply fold_left_overwritten. apply in_map_iff in Hin as (y & Ha & Hy).
    eauto.
  - rewrite (fold_left_unwritten f addr f_frame); [reflexivity|].
    intros y Hy ->. apply Hout. now apply in_map.
Qed.

End LastWrite.

Section PassesCompose.

Local Open Scope Z_scope.

Lemma recon_coefs_at_hit (w : weno) (c : mem R) (y : Z * Z * Z * Z) :
  recon_coefs_at w c y (coefs_addr w y)
  = (let '(i, r, j, n) := y in
     poly_eval (w_c_irj_x w (irj_offset (w_k w) i r j)) (xi_phys w i n)).
Proof.
  destruct y as [[[i r] j] n]. unfold recon_coefs_at, recon_coefs_n.
  cbv zeta. apply store_same.
Qed.

Lemma smoothness_at_hit' (w : weno) (b : mem R) (y : Z * Z * Z * Z) :
  smoothness_at w b y (smoothness_addr w y)
  = (let '(i, r, m, n) := y in
     smoothness_sum (w_k w) (if m =? n then 1 else 2)
       (w_x w (i + 1)%Z - w_x w i)%R
       (w_c_irj_x w (irj_offset (w_k w) i r m))
       (w_c_irj_x w (irj_offset (w_k w) i r n))).
Proof. destruct y as [[[i r] m] n]. apply smoothness_at_hit. Qed.

(** The reconstruction coefficient of an interior cell, evaluation point,
    shift and neighbour, as [weno_recon_coefs] leaves it. *)
Lemma recon_coefs_value (w : weno) (i n r j : Z) :
  c_layout_injective w ->
  w_k w - 1 <= i < w_nc w - (w_k w - 1) -> 0 <= n < w_nxi w ->
  0 <= r < w_k w -> 0 <= j < w_k w ->
  w_c_ilrj (weno_recon_coefs w) (c_offset w i n r j)
  = poly_eval (w_c_irj_x w (irj_offset (w_k w) i r j)) (xi_phys w i n).
Proof.
  intros Hinj Hi Hn Hr Hj. rewrite weno_recon_coefs_flat.
  apply (fold_left_written (recon_coefs_at w) (coefs_addr w)
           (fun y v =>
              v = (let '(i, r, j, n) := y in
                   poly_eval (w_c_irj_x w (irj_offset (w_k w) i r j))
                             (xi_phys w i n)))
           (recon_coefs_at_frame w) (recon_coefs_at_hit w)
           (coefs_space (w_k w) (w_nc w) (w_nxi w)) (w_c_ilrj w)
           (i, r, j, n)).
  - apply coefs_space_In. lia.
  - intros [[[i' r'] j'] n'] Hy Heq. apply coefs_space_In in Hy.
    unfold coefs_addr in Heq. apply Hinj in Heq; [|lia..].
    inversion Heq; subst. reflexivity.
Qed.

(** The coefficient of an interior cell after the first two passes. *)
Lemma recon_coefs_recon_sum (w : weno) (i n r j : Z) :
  c_layout_injective w ->
  w_k w - 1 <= i < w_nc w - (w_k w - 1) -> 0 <= n < w_nxi w ->
  0 <= r < w_k w -> 0 <= j < w_k w ->
  w_c_ilrj (weno_recon_coefs (weno_recon_polys w)) (c_offset w i n r j)
  = recon_sum (w_x w) (w_k w) i r j (xi_phys w i n).
Proof.
  intros Hinj Hi Hn Hr Hj.
  pose proof (recon_coefs_value (weno_recon_polys w) i n r j Hinj Hi Hn Hr Hj)
    as H.
  change (c_offset (weno_recon_polys w) i n r j) with (c_offset w i n r j) in H.
  rewrite H, poly_eval_value.
  apply (recon_polys_value w i r j); assumption.
Qed.

(** X1.  After [weno_recon_polys] and [weno_recon_coefs], the entry
    [c[i,n,r,j]] of an interior cell is the closed-form reconstruction
    polynomial of [(i,r,j)] at the physical offset
    [0.5 (1 + xi[n]) (x[i+1] - x[i])] of the evaluation point. *)
Theorem recon_coefs_closed_form (w : weno) (i n r j : Z) :
  c_layout_injective w ->
  w_k w - 1 <= i < w_nc w - (w_k w - 1) -> 0 <= n < w_nxi w ->
  0 <= r < w_k w -> 0 <= j < w_k w ->
  w_c_ilrj (weno_recon_coefs (weno_recon_polys w)) (c_offset w i n r j)
  = recon_sum (w_x w) (w_k w) i r j (xi_phys w i n).
Proof. exact (recon_coefs_recon_sum w i n r j). Qed.

Lemma ex_w_c_layout : c_layout_injective ex_w.
Proof.
  unfold c_layout_injective, c_offset, ex_w.
  cbn [w_csi w_csl w_csr w_csj w_nc w_nxi w_k]. intros.
  assert (i = i') by lia. assert (l = l') by lia.
  assert (r = r') by lia. assert (j = j') by lia. congruence.
Defined.

Lemma recon_coefs_closed_form_witness :
  w_c_ilrj (weno_recon_coefs (weno_recon_polys ex_w)) (c_offset ex_w 1 0 0 0)
  = recon_sum (w_x ex_w) (w_k ex_w) 1 0 0 (xi_phys ex_w 1 0).
Proof.
  apply (recon_coefs_closed_form ex_w 1 0 0 0).
  - exact ex_w_c_layout.
  - cbn. lia.
  - cbn. lia.
  - cbn. lia.
  - cbn. lia.
Defined.

(** X2.  The entries that the passes write do not depend on what the output
    buffers held before: whatever [c] and [beta] contain at the call, the
    cell of every visited tuple ends with the same value. *)
Theorem written_entries_ignore_old_contents
    (w : weno) (c' b' : mem R) (y : Z * Z * Z * Z) :
  (In y (coefs_space (w_k w) (w_nc w) (w_nxi w)) ->
   w_c_ilrj (weno_passes (set_beta (set_c_ilrj w c') b')) (coefs_addr w y)
   = w_c_ilrj (weno_passes w) (coefs_addr w y)) /\
  (In y (smoothness_space (w_k w) (w_nc w)) ->
   w_beta (weno_passes (set_beta (set_c_ilrj w c') b')) (smoothness_addr w y)
   = w_beta (weno_passes w) (smoothness_addr w y)).
Proof.
  split; intros Hy.
  - change (w_c_ilrj (weno_passes (set_beta (set_c_ilrj w c') b')))
      with (w_c_ilrj (weno_recon_coefs
                        (set_c_ilrj (weno_recon_polys w) c'))).
    change (w_c_ilrj (weno_passes w))
      with (w_c_ilrj (weno_recon_coefs (weno_recon_polys w))).
    rewrite !weno_recon_coefs_flat.
    apply (fold_left_overwritten (recon_coefs_at (weno_recon_polys w))
             (coefs_addr w) _
             (recon_coefs_at_frame (weno_recon_polys w))
             (recon_coefs_at_hit (weno_recon_polys w))).
    exists y. split; [exact Hy | reflexivity].
  - change (w_beta (weno_passes (set_beta (set_c_ilrj w c') b')))
      with (w_beta (weno_smoothness_coefs
                      (set_beta (weno_recon_coefs (weno_recon_polys w)) b'))).
    change (w_beta (weno_passes w))
      with (w_beta (weno_smoothness_coefs
                      (weno_recon_coefs (weno_recon_polys w)))).
    rewrite !weno_smoothness_coefs_flat.
    apply (fold_left_overwritten
             (smoothness_at (weno_recon_coefs (weno_recon_polys w)))
             (smoothness_addr w) _
             (smoothness_at_frame (weno_recon_coefs (weno_recon_polys w)))
             (smoothness_at_hit' (weno_recon_coefs (weno_recon_polys w)))).
    exists y. split; [exact Hy | reflexivity].
Qed.

Lemma written_entries_ignore_old_contents_witness :
  w_c_ilrj (weno_passes (set_beta (set_c_ilrj ex_w (fun _ => 1%R))
                                  (fun _ => 1%R)))
           (coefs_addr ex_w (1, 0, 0, 0))
  = w_c_ilrj (weno_passes ex_w) (coefs_addr ex_w (1, 0, 0, 0)) /\
  w_beta (weno_passes (set_beta (set_c_ilrj ex_w (fun _ => 1%R))
                                (fun _ => 1%R)))
         (smoothness_addr ex_w (1, 0, 0, 0))
  = w_beta (weno_passes ex_w) (smoothness_addr ex_w (1, 0, 0, 0)).
Proof.
  destruct (written_entries_ignore_old_contents ex_w (fun _ => 1%R)
              (fun _ => 1%R) (1, 0, 0, 0)) as [Hc Hb].
  split.
  - apply Hc. apply coefs_space_In. cbn. lia.
  - apply Hb. apply smoothness_space_In. cbn. lia.
Defined.

End PassesCompose.

(** * Further properties of the entry point *)

Section EntryPointMore.

Local Open Scope Z_scope.

Lemma bad_array_test (a : PyArrayObject) (nd : Z) :
  (negb (arr_nd a =? nd) || negb (arr_type_num a =? PyArray_DOUBLE) = true
   <-> bad_array a nd) /\
  (negb (arr_nd a =? nd) || negb (arr_type_num a =? PyArray_DOUBLE) = false
   <-> ~ bad_array a nd).
Proof.
  unfold bad_array.
  destruct (Z.eqb_spec (arr_nd a) nd), (Z.eqb_spec (arr_type_num a) PyArray_DOUBLE);
    cbn; split; split; intros; try tauto; try discriminate.
Qed.

(** The outcome of [py_nonuniform_coeffs], check by check. *)
Lemma py_nonuniform_coeffs_cases (args : py_args) :
  let unwritten := fun msg =>
    mkoutcome (PyNULL_ValueError msg)
              (arr_data (arg_c args)) (arr_data (arg_beta args)) in
  (bad_array (arg_x args) 1 /\
   py_nonuniform_coeffs args
   = unwritten "x must be one-dimensional and of type double"%string) \/
  (~ bad_array (arg_x args) 1 /\ bad_array (arg_xi args) 1 /\
   py_nonuniform_coeffs args
   = unwritten "xi must be one-dimensional and of type double"%string) \/
  (~ bad_array (arg_x args) 1 /\ ~ bad_array (arg_xi args) 1 /\
   bad_array (arg_c args) 4 /\
   py_nonuniform_coeffs args
   = unwritten "c must be four-dimensional and of type double"%string) \/
  (~ bad_array (arg_x args) 1 /\ ~ bad_array (arg_xi args) 1 /\
   ~ bad_array (arg_c args) 4 /\ bad_array (arg_beta args) 4 /\
   py_nonuniform_coeffs args
   = unwritten "beta must be four-dimensional and of type double"%string) \/
  (~ bad_array (arg_x args) 1 /\ ~ bad_array (arg_xi args) 1 /\
   ~ bad_array (arg_c args) 4 /\ ~ bad_array (arg_beta args) 4 /\
   py_nonuniform_coeffs args
   = mkoutcome Py_None (w_c_ilrj (weno_passes (weno_of_args args)))
                       (w_beta (weno_passes (weno_of_args args)))).
Proof.
  cbv zeta. unfold py_nonuniform_coeffs.
  destruct (negb (arr_nd (arg_x args) =? 1)
            || negb (arr_type_num (arg_x args) =? PyArray_DOUBLE)) eqn:Ex.
  { left. split; [now apply bad_array_test | reflexivity]. }
  apply bad_array_test in Ex. right.
  destruct (negb (arr_nd (arg_xi args) =? 1)
            || negb (arr_type_num (arg_xi args) =? PyArray_DOUBLE)) eqn:Exi.
  { left. repeat split; [assumption | now apply bad_array_test]. }
  apply bad_array_test in Exi. right.
  destruct (negb (arr_nd (arg_c args) =? 4)
            || negb (arr_type_num (arg_c args) =? PyArray_DOUBLE)) eqn:Ec.
  { left. repeat split; [assumption.. | now apply bad_array_test]. }
  apply bad_array_test in Ec. right.
  destruct (negb (arr_nd (arg_beta args) =? 4)
            || negb (arr_type_num (arg_beta args) =? PyArray_DOUBLE)) eqn:Eb.
  { left. repeat split; [assumption.. | now apply bad_array_test]. }
  apply bad_array_test in Eb. right.
  repeat split; assumption.
Qed.

(** X3.  The checks are made in the order [x], [xi], [c], [beta], and the
    error names the first array that fails; a request whose four arrays all
    pass is never rejected, whatever its sizes: the call returns [None]
    exactly when [x] and [xi] are one-dimensional arrays of doubles and [c]
    and [beta] four-dimensional ones. *)
Theorem error_names_first_bad_array (args : py_args) :
  let ret := out_ret (py_nonuniform_coeffs args) in
  (bad_array (arg_x args) 1 ->
   ret = PyNULL_ValueError "x must be one-dimensional and of type double") /\
  (~ bad_array (arg_x args) 1 -> bad_array (arg_xi args) 1 ->
   ret = PyNULL_ValueError "xi must be one-dimensional and of type double") /\
  (~ bad_array (arg_x args) 1 -> ~ bad_array (arg_xi args) 1 ->
   bad_array (arg_c args) 4 ->
   ret = PyNULL_ValueError "c must be four-dimensional and of type double") /\
  (~ bad_array (arg_x args) 1 -> ~ bad_array (arg_xi args) 1 ->
   ~ bad_array (arg_c args) 4 -> bad_array (arg_beta args) 4 ->
   ret = PyNULL_ValueError
           "beta must be four-dimensional and of type double") /\
  (ret = Py_None <->
   ~ bad_array (arg_x args) 1 /\ ~ bad_array (arg_xi args) 1 /\
   ~ bad_array (arg_c args) 4 /\ ~ bad_array (arg_beta args) 4).
Proof.
  cbv zeta.
  destruct (py_nonuniform_coeffs_cases args)
    as [(B1 & ->) | [(N1 & B2 & ->) | [(N1 & N2 & B3 & ->)
       | [(N1 & N2 & N3 & B4 & ->) | (N1 & N2 & N3 & N4 & ->)]]]];
    cbn [out_ret]; repeat split; intros; try tauto; try discriminate.
Qed.

Lemma error_names_first_bad_array_witness :
  out_ret (py_nonuniform_coeffs ex_args_2d)
  = PyNULL_ValueError "x must be one-dimensional and of type double".
Proof.
  apply (error_names_first_bad_array ex_args_2d).
  left. cbn. lia.
Defined.

(** What the passes leave in [c] and [beta], and how that depends on the
    buffers they are given. *)
Lemma passes_c (w : weno) :
  w_c_ilrj (weno_passes w)
  = fold_left (recon_coefs_at (weno_recon_polys w))
              (coefs_space (w_k w) (w_nc w) (w_nxi w)) (w_c_ilrj w).
Proof.
  unfold weno_passes.
  change (w_c_ilrj (weno_smoothness_coefs
                      (weno_recon_coefs (weno_recon_polys w))))
    with (w_c_ilrj (weno_recon_coefs (weno_recon_polys w))).
  exact (weno_recon_coefs_flat (weno_recon_polys w)).
Qed.

Lemma smoothness_at_recon_coefs (w : weno) :
  smoothness_at (weno_recon_coefs w) = smoothness_at w.
Proof. reflexivity. Qed.

Lemma passes_beta (w : weno) :
  w_beta (weno_passes w)
  = fold_left (smoothness_at (weno_recon_polys w))
              (smoothness_space (w_k w) (w_nc w)) (w_beta w).
Proof.
  unfold weno_passes.
  rewrite (weno_smoothness_coefs_flat (weno_recon_coefs (weno_recon_polys w))).
  rewrite smoothness_at_recon_coefs. reflexivity.
Qed.

Lemma recon_polys_set_buffers (w : weno) (c b : mem R) :
  weno_recon_polys (set_beta (set_c_ilrj w c) b)
  = set_beta (set_c_ilrj (weno_recon_polys w) c) b.
Proof. reflexivity. Qed.

Lemma recon_coefs_at_set_buffers (w : weno) (c b : mem R) :
  recon_coefs_at (set_beta (set_c_ilrj w c) b) = recon_coefs_at w.
Proof. reflexivity. Qed.

Lemma smoothness_at_set_buffers (w : weno) (c b : mem R) :
  smoothness_at (set_beta (set_c_ilrj w c) b) = smoothness_at w.
Proof. reflexivity. Qed.

Lemma passes_c_again (w : weno) (c b : mem R) :
  w_c_ilrj (weno_passes (set_beta (set_c_ilrj w c) b))
  = fold_left (recon_coefs_at (weno_recon_polys w))
              (coefs_space (w_k w) (w_nc w) (w_nxi w)) c.
Proof.
  rewrite passes_c, recon_polys_set_buffers, recon_coefs_at_set_buffers.
  reflexivity.
Qed.

Lemma passes_beta_again (w : weno) (c b : mem R) :
  w_beta (weno_passes (set_beta (set_c_ilrj w c) b))
  = fold_left (smoothness_at (weno_recon_polys w))
              (smoothness_space (w_k w) (w_nc w)) b.
Proof.
  rewrite passes_beta, recon_polys_set_buffers, smoothness_at_set_buffers.
  reflexivity.
Qed.

Lemma weno_of_args_with_buffers (args : py_args) (c b : mem R) :
  weno_of_args (with_buffers args c b)
  = set_beta (set_c_ilrj (weno_of_args args) c) b.
Proof. reflexivity. Qed.

(** X4.  Calling [py_nonuniform_coeffs] a second time, on the buffers the
    first call returned, returns the same value and leaves every cell of
    both buffers as the first call left it. *)
Theorem second_call_changes_nothing (args : py_args) (a : Z) :
  let out := py_nonuniform_coeffs args in
  let out2 :=
    py_nonuniform_coeffs (with_buffers args (out_c out) (out_beta out)) in
  out_ret out2 = out_ret out /\
  out_c out2 a = out_c out a /\
  out_beta out2 a = out_beta out a.
Proof.
  cbv zeta.
  destruct (py_nonuniform_coeffs_cases args)
    as [(B1 & E) | [(N1 & B2 & E) | [(N1 & N2 & B3 & E)
       | [(N1 & N2 & N3 & B4 & E) | (N1 & N2 & N3 & N4 & E)]]]];
    rewrite E; cbn [out_ret out_c out_beta].
  1-4: destruct (py_nonuniform_coeffs_cases
                   (with_buffers args (arr_data (arg_c args))
                                      (arr_data (arg_beta args))))
         as [(B1' & E') | [(N1' & B2' & E') | [(N1' & N2' & B3' & E')
            | [(N1' & N2' & N3' & B4' & E') | (N1' & N2' & N3' & N4' & E')]]]];
       rewrite E'; cbn [out_ret out_c out_beta with_buffers arg_c arg_beta
                        arr_data];
       try (repeat split; reflexivity);
       exfalso;
       match goal with
       | N : ~ bad_array _ _, H : bad_array _ _ |- _ => exact (N H)
       end.
  clear E. set (W := weno_of_args args).
  destruct (py_nonuniform_coeffs_cases
              (with_buffers args (w_c_ilrj (weno_passes W))
                                 (w_beta (weno_passes W))))
    as [(B1' & _) | [(_ & B2' & _) | [(_ & _ & B3' & _)
       | [(_ & _ & _ & B4' & _) | (_ & _ & _ & _ & E')]]]].
  { exact (False_ind _ (N1 B1')). }
  { exact (False_ind _ (N2 B2')). }
  { exact (False_ind _ (N3 B3')). }
  { exact (False_ind _ (N4 B4')). }
  rewrite E'. cbn [out_ret out_c out_beta].
  rewrite weno_of_args_with_buffers. fold W.
  split; [reflexivity|]. split.
  - rewrite passes_c_again, !passes_c.
    apply (fold_left_twice (recon_coefs_at (weno_recon_polys W))
             (coefs_addr (weno_recon_polys W)) _
             (recon_coefs_at_frame (weno_recon_polys W))
             (recon_coefs_at_hit (weno_recon_polys W))).
  - rewrite passes_beta_again, !passes_beta.
    apply (fold_left_twice (smoothness_at (weno_recon_polys W))
             (smoothness_addr (weno_recon_polys W)) _
             (smoothness_at_frame (weno_recon_polys W))
             (smoothness_at_hit' (weno_recon_polys W))).
Qed.

End EntryPointMore.

(** * Further properties of the polynomials and of the grid dependence *)

Section GridDependence.

Local Open Scope R_scope.

(** X5.  [inplace_poly_add(p1, p2)] adds to [p1] the part of [p2] of degree
    at most [p1.n]: the working degree and the length of [p1] stay, and
    coefficients of [p2] beyond [p1.n] are not read. *)
Theorem inplace_poly_add_value (p1 p2 : poly) (t : R) :
  wf p1 ->
  let q := inplace_poly_add p1 p2 in
  poly_n q = poly_n p1 /\ wf q /\
  poly_value q t
  = poly_value p1 t + poly_value (mkpoly (poly_n p1) (poly_p p2)) t.
Proof.
  intros Hwf q. destruct (add_spec p1 p2 Hwf) as (Hn & Hwfq & Hc).
  fold q in Hn, Hwfq, Hc. repeat split; try assumption.
  unfold poly_value. rewrite Hn. cbn [poly_n]. rewrite <- sumR_plus.
  apply sumR_ext. intros z Hz. apply in_seq in Hz. cbv beta.
  rewrite Hc by lia.
  change (coef (mkpoly (poly_n p1) (poly_p p2)) z) with (coef p2 z). ring.
Qed.

Lemma inplace_poly_add_value_witness :
  let q := inplace_poly_add (poly_one 1) (poly_one 1) in
  poly_n q = poly_n (poly_one 1) /\ wf q /\
  poly_value q 1
  = poly_value (poly_one 1) 1
    + poly_value (mkpoly (poly_n (poly_one 1)) (poly_p (poly_one 1))) 1.
Proof.
  apply (inplace_poly_add_value (poly_one 1) (poly_one 1) 1). reflexivity.
Defined.

(** X6.  [inplace_poly_scale(p, a)] multiplies the polynomial by [a] and
    keeps its working degree and length. *)
Theorem inplace_poly_scale_value (p : poly) (a t : R) :
  wf p ->
  let q := inplace_poly_scale p a in
  poly_n q = poly_n p /\ wf q /\ poly_value q t = a * poly_value p t.
Proof.
  intros Hwf q. destruct (scale_spec p a Hwf) as (Hn & Hwfq & _).
  repeat split; try assumption. now apply value_scale.
Qed.

Lemma inplace_poly_scale_value_witness :
  let q := inplace_poly_scale (poly_one 1) 2 in
  poly_n q = poly_n (poly_one 1) /\ wf q /\
  poly_value q 1 = 2 * poly_value (poly_one 1) 1.
Proof.
  apply (inplace_poly_scale_value (poly_one 1) 2 1). reflexivity.
Defined.







(** [weno_smoothness_coefs] reads the grid only through the cell widths. *)
Lemma smoothness_at_same_widths (w1 w2 : weno) :
  w_k w1 = w_k w2 -> w_c_irj_x w1 = w_c_irj_x w2 ->
  w_bsi w1 = w_bsi w2 -> w_bsr w1 = w_bsr w2 ->
  w_bsm w1 = w_bsm w2 -> w_bsn w1 = w_bsn w2 ->
  (forall i : Z, w_x w1 (i + 1)%Z - w_x w1 i = w_x w2 (i + 1)%Z - w_x w2 i) ->
  forall b y, smoothness_at w1 b y = smoothness_at w2 b y.
Proof.
  intros Hk Hp H1 H2 H3 H4 Hdx b [[[i r] m] n].
  unfold smoothness_at, smoothness_n.
  now rewrite Hk, Hp, H1, H2, H3, H4, Hdx.
Qed.

(** X8.  The smoothness buffer, too, is the same on the grid [x[j] + t] as
    on [x]. *)
Theorem smoothness_translation_invariance (w : weno) (t : R) :
  w_beta (weno_passes (translate w t)) = w_beta (weno_passes w).
Proof.
  rewrite !passes_beta. apply fold_left_ext_in. intros b y _.
  apply smoothness_at_same_widths; try reflexivity.
  - apply recon_polys_translate.
  - intros i. unfold weno_recon_polys, translate. cbn [w_x set_c_irj_x].
    ring.
Qed.

End GridDependence.

(** * Reproduction of constants *)

Section Lagrange.

Local Open Scope R_scope.

Variable nu : Z -> R.



Lemma without_not_in (l : Z) (L : list Z) : ~ In l L -> without l L = L.
Proof.
  intros H. apply filter_all. intros m Hm.
  apply negb_true_iff, Z.eqb_neq. intros ->. contradiction.
Qed.

Lemma without_cons_same (l : Z) (L : list Z) :
  without l (l :: L) = without l L.
Proof. unfold without. cbn [filter]. now rewrite Z.eqb_refl. Qed.

Lemma without_cons_other (l a : Z) (L : list Z) :
  a <> l -> without l (a :: L) = a :: without l L.
Proof.
  intros H. unfold without. cbn [filter].
  now apply Z.eqb_neq in H as ->.
Qed.






(** The derivative of a product of binomials [(t - nu m)], [m] in [M]: the
    sum over [m] of the product of the others. *)
Lemma product_derivable (M : list Z) (t : R) :
  NoDup M ->
  derivable_pt_lim (fun y => prodR (fun m => y - nu m) M) t
    (sumR (fun m => prodR (fun n => t - nu n) (without m M)) M).
Proof.
  induction 1 as [|h M Hh Hnd IH].
  - apply (derivable_pt_lim_ext (fct_cte 1)); [reflexivity|].
    apply derivable_pt_lim_const.
  - rewrite sumR_cons, without_cons_same, (without_not_in h M Hh).
    rewrite (sumR_ext _
               (fun m => (t - nu h)
                         * prodR (fun n => t - nu n) (without m M)) M).
    2:{ intros m Hm. cbv beta.
        rewrite without_cons_other by (intros ->; contradiction).
        now rewrite prodR_cons. }
    rewrite sumR_scal.
    apply (derivable_pt_lim_ext
             (mult_fct (fun y => y - nu h)
                       (fun y => prodR (fun m => y - nu m) M)));
      [reflexivity|].
    replace (prodR (fun n => t - nu n) M
             + (t - nu h)
               * sumR (fun m => prodR (fun n => t - nu n) (without m M)) M)
      with (1 * prodR (fun m => t - nu m) M
            + (t - nu h)
              * sumR (fun m => prodR (fun n => t - nu n) (without m M)) M)
      by ring.
    apply (derivable_pt_lim_mult (fun y => y - nu h)
             (fun y => prodR (fun m => y - nu m) M)); [|exact IH].
    apply (derivable_pt_lim_ext (id - fct_cte (nu h))%F); [reflexivity|].
    replace 1 with (1 - 0) by ring.
    apply derivable_pt_lim_minus;
      [apply derivable_pt_lim_id | apply derivable_pt_lim_const].
Qed.


End Lagrange.

Section Consistency.

Local Open Scope R_scope.







End Consistency.

Section StencilSupport.

Local Open Scope R_scope.

(** The polynomial the specification words, a sum of Lagrange basis
    polynomials, has the polynomial the code builds as its derivative. *)
Lemma lagrange_sum_derivable (x : mem R) (k i r j : Z) (t : R) :
  derivable_pt_lim (fun y => lagrange_sum x k i r j y) t
                   (recon_sum x k i r j t).
Proof.
  unfold lagrange_sum, recon_sum.
  apply (derivable_pt_lim_sumR (zrange (j + 1) (k + 1))
           (fun l y => lagrange_term x k i r l y)
           (fun l y => recon_term x k i r l y)).
  intros l _. unfold lagrange_term, recon_term.
  apply (derivable_pt_lim_ext
           (mult_real_fct (1 / lagrange_denominator x k i r l)
              (fun y => prodR (fun m => y - node x k i r m) (others k l)))).
  { intros y. unfold mult_real_fct. ring. }
  rewrite Rmult_comm. apply derivable_pt_lim_scal.
  rewrite (sumR_ext
             (fun m => prodR (fun n => t - node x k i r n) (others2 k l m))
             (fun m => prodR (fun n => t - node x k i r n)
                             (without m (others k l)))
             (others k l)).
  - apply (product_derivable (node x k i r) (others k l) t).
    apply NoDup_filter, zrange_NoDup.
  - intros m _. cbv beta. now rewrite others2_others.
Qed.

(** X10.  The polynomial stored for an interior cell, a shift and a
    neighbour is the derivative of the sum, over [l] from [j+1] to [k], of
    the Lagrange basis polynomials of the stencil nodes (the products of
    [(x - node[m])] over [m <> l], over their denominators). *)
Theorem stored_polynomial_is_derivative (w : weno) (i r j : Z) (t : R) :
  (w_k w - 1 <= i < w_nc w - (w_k w - 1))%Z ->
  (0 <= r < w_k w)%Z -> (0 <= j < w_k w)%Z ->
  derivable_pt_lim (fun y => lagrange_sum (w_x w) (w_k w) i r j y) t
    (poly_value (w_c_irj_x (weno_recon_polys w) (irj_offset (w_k w) i r j)) t).
Proof.
  intros Hi Hr Hj.
  destruct (recon_polys_value w i r j t Hi Hr Hj) as (_ & _ & ->).
  apply lagrange_sum_derivable.
Qed.

Lemma stored_polynomial_is_derivative_witness :
  derivable_pt_lim (fun y => lagrange_sum (w_x ex_w) (w_k ex_w) 1 0 0 y) 0
    (poly_value (w_c_irj_x (weno_recon_polys ex_w)
                           (irj_offset (w_k ex_w) 1 0 0)) 0).
Proof.
  apply (stored_polynomial_is_derivative ex_w 1 0 0 0); cbn; lia.
Defined.

(** The closed form reads the grid at the [k+1] boundaries of the stencil
    only. *)
Lemma recon_sum_same_stencil (x x' : mem R) (k i r j : Z) (t : R) :
  (0 <= r < k)%Z -> (0 <= j)%Z ->
  (forall a : Z, (i - r <= a <= i - r + k)%Z -> x a = x' a) ->
  recon_sum x k i r j t = recon_sum x' k i r j t.
Proof.
  intros Hr Hj Hx.
  assert (Hnode : forall m, (0 <= m <= k)%Z ->
                    node x k i r m = node x' k i r m).
  { intros m Hm. unfold node, xlocal_at. rewrite !Hx by lia. reflexivity. }
  unfold recon_sum. apply sumR_ext. intros l Hl. apply zrange_In in Hl.
  unfold recon_term, lagrange_denominator. f_equal; [|f_equal].
  - apply sumR_ext. intros m Hm. apply prodR_ext. intros n Hn.
    apply others2_In in Hn. now rewrite Hnode by lia.
  - apply prodR_ext. intros m Hm. apply others_In in Hm.
    now rewrite !Hnode by lia.
Qed.

(** X11.  The reconstruction coefficients of an interior cell [i] and shift
    [r] depend on the grid only through the [k+1] boundaries
    [x[i-r] .. x[i-r+k]] of the stencil: on two grids that agree there, they
    are equal. *)
Theorem coefficients_depend_on_stencil_only
    (w : weno) (x' : mem R) (i n r j : Z) :
  c_layout_injective w ->
  (w_k w - 1 <= i < w_nc w - (w_k w - 1))%Z -> (0 <= n < w_nxi w)%Z ->
  (0 <= r < w_k w)%Z -> (0 <= j < w_k w)%Z ->
  (forall a : Z, (i - r <= a <= i - r + w_k w)%Z -> w_x w a = x' a) ->
  w_c_ilrj (weno_recon_coefs (weno_recon_polys (with_grid w x')))
           (c_offset w i n r j)
  = w_c_ilrj (weno_recon_coefs (weno_recon_polys w)) (c_offset w i n r j).
Proof.
  intros Hinj Hi Hn Hr Hj Hx.
  rewrite (recon_coefs_recon_sum w i n r j) by assumption.
  pose proof (recon_coefs_recon_sum (with_grid w x') i n r j Hinj Hi Hn Hr Hj)
    as H.
  change (c_offset (with_grid w x') i n r j) with (c_offset w i n r j) in H.
  rewrite H.
  change (w_x (with_grid w x')) with x'.
  change (w_k (with_grid w x')) with (w_k w).
  replace (xi_phys (with_grid w x') i n) with (xi_phys w i n).
  - symmetry. apply recon_sum_same_stencil; (assumption || lia).
  - unfold xi_phys, with_grid. cbn [w_x w_xi]. rewrite !Hx by lia.
    reflexivity.
Qed.

Lemma coefficients_depend_on_stencil_only_witness :
  w_c_ilrj (weno_recon_coefs
              (weno_recon_polys
                 (with_grid ex_w (fun z => if (z <? 1)%Z then -5 else IZR z))))
           (c_offset ex_w 1 0 0 0)
  = w_c_ilrj (weno_recon_coefs (weno_recon_polys ex_w))
             (c_offset ex_w 1 0 0 0).
Proof.
  apply (coefficients_depend_on_stencil_only ex_w
           (fun z => if (z <? 1)%Z then -5 else IZR z) 1 0 0 0).
  - exact ex_w_c_layout.
  - cbn. lia.
  - cbn. lia.
  - cbn. lia.
  - cbn. lia.
  - intros a Ha. unfold ex_w, ex_x. cbn [w_x].
    destruct (Z.ltb_spec a 1) as [Hlt|_]; [lia | reflexivity].
Defined.

End StencilSupport.

(** * Offsets within the allocated blocks *)

Section InBounds.

Local Open Scope Z_scope.

(** A number written with digits [a] and [b < k] in base [k]. *)
Lemma two_digits_inj (k a b a' b' : Z) :
  0 <= b < k -> 0 <= b' < k -> a * k + b = a' * k + b' -> a = a' /\ b = b'.
Proof.
  intros Hb Hb' E.
  assert (Eb : b = b').
  { assert (E1 : (a * k + b) mod k = b)
      by (rewrite Z.add_comm, Z.mod_add, Z.mod_small; lia).
    assert (E2 : (a' * k + b') mod k = b')
      by (rewrite Z.add_comm, Z.mod_add, Z.mod_small; lia).
    congruence. }
  split; [nia | exact Eb].
Qed.

(** X12.  Every index at which the three passes address the block of
    [nc*k*k] polynomials that [py_nonuniform_coeffs] allocates lies within
    it. *)
Theorem polynomial_indices_in_block (k nc nxi : Z) :
  (forall i r j, In (i, r, j) (polys_space k nc) ->
                 0 <= irj_offset k i r j < nc * k * k) /\
  (forall i r j n, In (i, r, j, n) (coefs_space k nc nxi) ->
                   0 <= irj_offset k i r j < nc * k * k) /\
  (forall i r m n, In (i, r, m, n) (smoothness_space k nc) ->
                   0 <= irj_offset k i r m < nc * k * k /\
                   0 <= irj_offset k i r n < nc * k * k).
Proof.
  assert (H : forall i r j,
            k - 1 <= i < nc - (k - 1) -> 0 <= r < k -> 0 <= j < k ->
            0 <= irj_offset k i r j < nc * k * k).
  { intros i r j Hi Hr Hj. unfold irj_offset.
    assert (0 <= i * k * k) by nia.
    assert (0 <= r * k) by nia.
    assert (r * k + j < k * k) by nia.
    assert ((i + 1) * (k * k) <= nc * (k * k)) by nia.
    nia. }
  split; [|split].
  - intros i r j Hy. apply polys_space_In in Hy. apply H; lia.
  - intros i r j n Hy. apply coefs_space_In in Hy. apply H; lia.
  - intros i r m n Hy. apply smoothness_space_In in Hy. split; apply H; lia.
Qed.

Lemma polynomial_indices_in_block_witness :
  0 <= irj_offset 2 1 0 0 < 4 * 2 * 2.
Proof.
  apply (proj1 (polynomial_indices_in_block 2 4 1) 1 0 0).
  apply polys_space_In. lia.
Defined.

(** X13.  With the strides of C-contiguous tensors of extents
    [(nc, nxi, k, k)] and [(nc, k, k, k)], distinct entries have distinct
    cells, and every write of the two output passes lies within the tensor
    ([nc*nxi*k*k] cells of [c], [nc*k*k*k] cells of [beta]). *)
Theorem contiguous_tensors_are_safe (w : weno) :
  c_contiguous w -> beta_contiguous w ->
  c_layout_injective w /\ beta_layout_injective w /\
  (forall y, In y (coefs_space (w_k w) (w_nc w) (w_nxi w)) ->
             0 <= coefs_addr w y < w_nc w * w_nxi w * w_k w * w_k w) /\
  (forall y, In y (smoothness_space (w_k w) (w_nc w)) ->
             0 <= smoothness_addr w y < w_nc w * w_k w * w_k w * w_k w).
Proof.
  intros (Hj & Hr & Hl & Hi) (Bn & Bm & Br & Bi).
  split; [|split; [|split]].
  - intros i l r j i' l' r' j' Ri Rl Rr Rj Ri' Rl' Rr' Rj' E.
    unfold c_offset in E. rewrite Hj, Hr, Hl, Hi in E.
    set (k := w_k w) in *. set (nxi := w_nxi w) in *.
    assert (E1 : ((i * nxi + l) * k + r) * k + j
                 = ((i' * nxi + l') * k + r') * k + j') by lia.
    apply two_digits_inj in E1 as [E2 ->]; [|lia..].
    apply two_digits_inj in E2 as [E3 ->]; [|lia..].
    apply two_digits_inj in E3 as [-> ->]; [|lia..].
    reflexivity.
  - intros i r m n i' r' m' n' Ri Rr Rm Rn Ri' Rr' Rm' Rn' E.
    unfold beta_offset in E. rewrite Bn, Bm, Br, Bi in E.
    set (k := w_k w) in *.
    assert (E1 : ((i * k + r) * k + m) * k + n
                 = ((i' * k + r') * k + m') * k + n') by lia.
    apply two_digits_inj in E1 as [E2 ->]; [|lia..].
    apply two_digits_inj in E2 as [E3 ->]; [|lia..].
    apply two_digits_inj in E3 as [-> ->]; [|lia..].
    reflexivity.
  - intros [[[i r] j] n] Hy. apply coefs_space_In in Hy.
    unfold coefs_addr, c_offset. rewrite Hj, Hr, Hl, Hi.
    set (k := w_k w) in *. set (nxi := w_nxi w) in *. set (nc := w_nc w) in *.
    assert (0 <= r * k + j < k * k) by nia.
    assert (0 <= n * (k * k) + (r * k + j) < nxi * (k * k)) by nia.
    assert (0 <= i * (nxi * (k * k))) by nia.
    assert ((i + 1) * (nxi * (k * k)) <= nc * (nxi * (k * k))) by nia.
    nia.
  - intros [[[i r] m] n] Hy. apply smoothness_space_In in Hy.
    unfold smoothness_addr, beta_offset. rewrite Bn, Bm, Br, Bi.
    set (k := w_k w) in *. set (nc := w_nc w) in *.
    assert (0 <= m * k + n < k * k) by nia.
    assert (0 <= r * (k * k) + (m * k + n) < k * (k * k)) by nia.
    assert (0 <= i * (k * (k * k))) by nia.
    assert ((i + 1) * (k * (k * k)) <= nc * (k * (k * k))) by nia.
    nia.
Qed.

Lemma contiguous_tensors_are_safe_witness :
  c_layout_injective ex_w /\ beta_layout_injective ex_w /\
  (forall y, In y (coefs_space (w_k ex_w) (w_nc ex_w) (w_nxi ex_w)) ->
             0 <= coefs_addr ex_w y
             < w_nc ex_w * w_nxi ex_w * w_k ex_w * w_k ex_w) /\
  (forall y, In y (smoothness_space (w_k ex_w) (w_nc ex_w)) ->
             0 <= smoothness_addr ex_w y
             < w_nc ex_w * w_k ex_w * w_k ex_w * w_k ex_w).
Proof.
  apply (contiguous_tensors_are_safe ex_w).
  - unfold c_contiguous. cbn. lia.
  - unfold beta_contiguous. cbn. lia.
Defined.

End InBounds.
